(** * The lint runner of golangci-lint: worker pool, panic-safe executor,
      result-processing pipeline ([pkg/lint/runner.go]).

    The development embeds the runner shallowly.  Go's imperative code is
    written in a small state monad over a [World] that holds what the
    goroutines share: the logger's output, the stopwatch stages, the
    processors' private state, the record of calls made on the processors
    and the heap of [[]linter.Config] backing arrays.  A channel is the
    FIFO list of the values sent on it before it is closed. *)

From Stdlib Require Import ZArith String List Lia Permutation Sorted.
From stdpp Require Import base list strings pretty sorting.

(** ** Go values *)

(** An [error], identified with its message. *)
Definition error := string.

(** Go code either completes with a value or panics. *)
Inductive outcome (A : Type) : Type :=
| Ok (a : A)
| Panic (msg : string).
Arguments Ok {A} a.
Arguments Panic {A} msg.

Definition isOk {A} (o : outcome A) : bool :=
  match o with Ok _ => true | Panic _ => false end.

Module time.
(** A [time.Time] instant, in nanoseconds. *)
Definition Time := Z.
(** A [time.Duration] is an int64 count of nanoseconds. *)
Definition Duration := Z.
Definition minDuration : Duration := (- 2 ^ 63)%Z.
Definition maxDuration : Duration := (2 ^ 63 - 1)%Z.

Definition After (t u : Time) : bool := (u <? t)%Z.
Definition Equal (t u : Time) : bool := (t =? u)%Z.
(** [t.Sub(u)] saturates at the bounds of [Duration]. *)
Definition Sub (t u : Time) : Duration :=
  Z.max minDuration (Z.min maxDuration (t - u)).
End time.

Module result.
(** Modelled from the spec: [result.Issue] is declared in [pkg/result],
    outside the runner; a finding is a value that carries a source
    location, a message and the originating analyzer's identity. *)
Record Issue := mkIssue {
  FromLinter : string;
  Text : string;
  Pos : string * Z
}.

(** The assignment [i.FromLinter = name] on a variable [i] of type [Issue]. *)
Definition set_FromLinter (name : string) (i : Issue) : Issue :=
  {| FromLinter := name; Text := Text i; Pos := Pos i |}.
End result.

(** A value of type [[]result.Issue]: [None] is the nil slice, [Some l] a
    non-nil slice with elements [l]. *)
Definition Issues := option (list result.Issue).

Definition len (s : Issues) : nat :=
  match s with None => 0 | Some l => length l end.

Module linter.
(** Modelled from the spec: [linter.Context] is declared in
    [pkg/lint/linter]; it is the shared execution context, of which the
    runner reads the configured concurrency and replaces the logger. *)
Record Context := mkContext {
  Concurrency : Z;          (* Cfg.Run.Concurrency *)
  Log : string              (* the name of the logger handed to the analyzer *)
}.

(** Modelled from the spec: an analyzer is an arbitrary unit of work; one
    call of [Linter.Run] returns [(issues, err)] or panics with a non-nil
    value, rendered by [%s] as [panicData]; [stack] is what [debug.Stack()]
    reads in the deferred handler. *)
Inductive RunResult :=
| Returns (issues : Issues) (err : option error)
| Panics (panicData : string) (stack : string).

(** Modelled from the spec: the [Linter] interface of [pkg/lint/linter],
    of which the runner calls [Name] and [Run]. *)
Record LinterI := mkLinter {
  Name : string;
  Run : Context -> RunResult
}.

(** Modelled from the spec: [linter.Config] is declared in
    [pkg/lint/linter]; a task identifies one analyzer and has a scalar
    expected speed, read by [GetSpeed]. *)
Record Config := mkConfig {
  Linter : LinterI;
  Speed : Z
}.

Definition GetSpeed (lc : Config) : Z := Speed lc.
End linter.

Module context.
(** The cancellation signal as the runner observes it.  The workers poll
    it once per task they dequeue; [Run] polls it once. *)
Record Context := mkCtx {
  (* [None]: the workers never see the signal; [Some k]: they see it from
     their (k+1)-th poll on *)
  doneAfter : option nat;
  (* [ctx.Err() != nil] when [Run] checks it *)
  ErrInRun : bool
}.
End context.

(** ** The shared world *)

Inductive Level := Info | Warn | Error.

Inductive Call :=
| CallProcess (processor : string)
| CallFinish (processor : string).

Definition isFinish (c : Call) : bool :=
  match c with CallFinish _ => true | CallProcess _ => false end.

(** A slice of [linter.Config] spanning its whole backing array: the
    address of the array in the heap. *)
Definition slice := nat.

Record World {St : Type} := mkWorld {
  log : list (Level * string);
  stages : list (string * string);      (* (stopwatch, stage) in tracking order *)
  store : St;
  calls : list Call;
  heap : list (list linter.Config)
}.
Arguments World St : clear implicits.
Arguments mkWorld {St} log stages store calls heap.

Definition M (St A : Type) : Type := World St -> A * World St.

Definition ret {St A} (a : A) : M St A := fun w => (a, w).
Definition bind {St A B} (m : M St A) (k : A -> M St B) : M St B :=
  fun w => let (a, w') := m w in k a w'.

Notation "'do' x <- m ; k" := (bind m (fun x => k))
  (at level 10, x name, m at level 100, k at level 200).
Notation "'do' ' p <- m ; k" := (bind m (fun x => match x with p => k end))
  (at level 10, p pattern, m at level 100, k at level 200).

(** [for _, x := range l { body x }] *)
Fixpoint forEach {St A} (l : list A) (body : A -> M St unit) : M St unit :=
  match l with
  | [] => ret tt
  | x :: l' => do _ <- body x; forEach l' body
  end.

(** A range loop that carries one variable assigned in its body. *)
Fixpoint forEachWith {St A V} (l : list A) (body : V -> A -> M St V) (v : V) : M St V :=
  match l with
  | [] => ret v
  | x :: l' => do v' <- body v x; forEachWith l' body v'
  end.

(** Modelled from the spec: the logger of [pkg/logutils] writes one line
    per call, at the severity of the method called. *)
Definition logf {St} (lvl : Level) (msg : string) : M St unit :=
  fun w => (tt, mkWorld (log w ++ [(lvl, msg)]) (stages w) (store w) (calls w) (heap w)).
Definition Infof {St} := @logf St Info.
Definition Warnf {St} := @logf St Warn.
Definition Errorf {St} := @logf St Error.

(** Modelled from the spec: the stopwatch of [pkg/timeutils] attributes the
    run of [f] to a named stage; this is [sw.TrackStage(stage, f)] for the
    stopwatch named [sw]. *)
Definition TrackStage {St A} (sw stage : string) (f : M St A) : M St A :=
  fun w => f (mkWorld (log w) (stages w ++ [(sw, stage)]) (store w) (calls w) (heap w)).

Module timeutils.
(** Modelled from the spec: the reports of the stopwatch of [pkg/timeutils].
    [sw.Print()] and [sw.PrintStages()] each write one line at info
    severity through the runner's logger.  The text gives the durations the
    stopwatch measured, which the clock decides; here it is a function of
    the stopwatch's name and of the stages it has tracked. *)
Class Stopwatch := mkStopwatch {
  PrintText : string -> list string -> string;
  PrintStagesText : string -> list string -> string
}.
End timeutils.

(** The stages tracked so far by the stopwatch named [sw]. *)
Definition stagesOf {St} (sw : string) (w : World St) : list string :=
  map snd (filter (fun e => e.1 = sw) (stages w)).

(** [sw.Print()] *)
Definition sw_Print {St} `{SW : timeutils.Stopwatch} (sw : string) : M St unit :=
  fun w => Infof (timeutils.PrintText sw (stagesOf sw w)) w.

(** [sw.PrintStages()] *)
Definition sw_PrintStages {St} `{SW : timeutils.Stopwatch} (sw : string) : M St unit :=
  fun w => Infof (timeutils.PrintStagesText sw (stagesOf sw w)) w.

Module processors.
(** Modelled from the spec: the [Processor] interface of
    [pkg/result/processors]: a named stage with [Process], which may fail,
    and [Finish].  A processor keeps private state across records; [St] is
    the state of all the processors of a run. *)
Record Processor {St : Type} := mkProcessor {
  Name : string;
  Process : Issues -> St -> (Issues * option error) * St;
  Finish : St -> St
}.
Arguments Processor St : clear implicits.
Arguments mkProcessor {St} Name Process Finish.
End processors.

Record Runner {St : Type} := mkRunner {
  Processors : list (processors.Processor St)
}.
Arguments Runner St : clear implicits.
Arguments mkRunner {St} Processors.

Record lintRes := mkLintRes {
  linter_ : linter.Config;
  err : option error;
  issues : Issues
}.

(** ** The panic-safe task executor *)

(** One iteration of [for _, i := range issues { i.FromLinter = name }] at
    index [k].  The loop variable [i] is a fresh copy of [issues[k]]; the
    body assigns a field of that copy and nothing writes [issues[k]].  The
    state is the backing array and the current value of [i]. *)
Definition stampIteration (name : string)
    (st : list result.Issue * option result.Issue) (k : nat)
    : list result.Issue * option result.Issue :=
  let (arr, _) := st in
  match arr !! k with
  | Some elem =>
      let i := elem in
      let i := result.set_FromLinter name i in
      (arr, Some i)
  | None => st
  end.

Definition stampLoop (name : string) (issues : Issues) : Issues :=
  match issues with
  | None => None
  | Some arr => Some (fst (fold_left (stampIteration name) (seq 0 (length arr)) (arr, None)))
  end.

Definition runLinterSafe {St} (lintCtx : linter.Context) (lc : linter.Config)
    : M St (Issues * option error) :=
  let specificLintCtx :=
    linter.mkContext (linter.Concurrency lintCtx) (linter.Name (linter.Linter lc)) in
  match linter.Run (linter.Linter lc) specificLintCtx with
  | linter.Panics panicData stack =>
      (* the deferred handler: the named results are still (nil, nil) *)
      let err := "panic occurred: " +:+ panicData in
      do _ <- Warnf ("Panic stack trace: " +:+ stack);
      ret (None, Some err)
  | linter.Returns _ (Some err) => ret (None, Some err)
  | linter.Returns issues None =>
      let issues := stampLoop (linter.Name (linter.Linter lc)) issues in
      ret (issues, None)
  end.

(** ** One worker

    [tasksCh] holds the tasks this worker finds in the queue, [doneAfter]
    is the number of polls of the cancellation signal that still see it
    unset.  The result is what the worker sends on [lintResultsCh].  The
    deferred [sw.Print()] runs at either return. *)
Fixpoint runWorker {St} `{SW : timeutils.Stopwatch} (doneAfter : option nat)
    (lintCtx : linter.Context) (tasksCh : list linter.Config) (name : string)
    : M St (list lintRes) :=
  match tasksCh with
  | [] => do _ <- sw_Print name; ret []            (* [!ok]: closed and drained *)
  | lc :: tasksCh' =>
      match doneAfter with
      | Some 0 => do _ <- sw_Print name; ret []    (* [ctx.Done()], [ctx.Err() != nil] *)
      | _ =>
          do '(issues, err) <-
            TrackStage name (linter.Name (linter.Linter lc)) (runLinterSafe lintCtx lc);
          do rest <- runWorker (pred <$> doneAfter) lintCtx tasksCh' name;
          ret (mkLintRes lc err issues :: rest)
      end
  end.

(** ** Worker statistics *)

Section WorkersStat.
(** [Duration.String()], the [%s] rendering of a duration. *)
Variable Duration_String : time.Duration -> string.

(** [fmt.Sprintf("#%d: %s", i+1, lastFinishTime.Sub(t))] *)
Definition idleLine (lastFinishTime : time.Time) (i : nat) (t : time.Time) : string :=
  "#" +:+ pretty (i + 1) +:+ ": " +:+ Duration_String (time.Sub lastFinishTime t).

(** The first loop: the latest finish time. *)
Definition lastOf (lastFinishTime : time.Time) (workersFinishTimes : list time.Time)
    : time.Time :=
  fold_left (fun last t => if time.After t last then t else last)
            workersFinishTimes lastFinishTime.

(** The second loop, from index [i] on. *)
Fixpoint idleLoop (lastFinishTime : time.Time) (i : nat) (ts : list time.Time)
    (logStrings : list string) : list string :=
  match ts with
  | [] => logStrings
  | t :: ts' =>
      if time.Equal t lastFinishTime
      then idleLoop lastFinishTime (S i) ts' logStrings            (* continue *)
      else idleLoop lastFinishTime (S i) ts'
                    (logStrings ++ [idleLine lastFinishTime i t])
  end.

(** [strings.Join] *)
Fixpoint Join (elems : list string) (sep : string) : string :=
  match elems with
  | [] => ""
  | [s] => s
  | s :: rest => s +:+ sep +:+ Join rest sep
  end.

Definition logWorkersStat {St} (workersFinishTimes : list time.Time) : M St (outcome unit) :=
  match workersFinishTimes !! 0 with
  | None => ret (Panic "index out of range [0] with length 0")
  | Some t0 =>
      let lastFinishTime := lastOf t0 workersFinishTimes in
      let logStrings := idleLoop lastFinishTime 0 workersFinishTimes [] in
      do _ <- Infof ("Workers idle times: " +:+ Join logStrings ", ");
      ret (Ok tt)
  end.
End WorkersStat.

(** ** Slices of tasks in the heap *)

(** The zero value of [linter.Config]: a nil [Linter], whose methods panic. *)
Definition zeroConfig : linter.Config :=
  linter.mkConfig
    (linter.mkLinter "" (fun _ => linter.Panics "nil pointer dereference" "")) 0.

Definition setHeap {St} (h : list (list linter.Config)) (w : World St) : World St :=
  mkWorld (log w) (stages w) (store w) (calls w) h.

(** The elements of the slice [s]. *)
Definition elems {St} (s : slice) (w : World St) : list linter.Config :=
  default [] (heap w !! s).

Definition deref {St} (s : slice) : M St (list linter.Config) :=
  fun w => (elems s w, w).

(** [make([]linter.Config, n)]: a fresh backing array of zero values. *)
Definition make {St} (n : nat) : M St slice :=
  fun w => (length (heap w), setHeap (heap w ++ [replicate n zeroConfig]) w).

(** [copy(dst, src)] copies [min(len(dst), len(src))] elements. *)
Definition copy {St} (dst src : slice) : M St nat :=
  fun w =>
    let d := elems dst w in
    let s := elems src w in
    let n := Nat.min (length d) (length s) in
    (n, setHeap (<[dst := take n s ++ drop n d]> (heap w)) w).

Section Dispatch.
Context {St : Type} `{SW : timeutils.Stopwatch}.

(** The permutation [sort.Slice] applies to a slice, given the order
    [less] induces on its elements; the library documents that the result
    is sorted and that the sort is not stable. *)
Variable sortSlice :
  (linter.Config -> linter.Config -> bool) -> list linter.Config -> list linter.Config.

(** [sort.Slice(x, less)] sorts the backing array of [x] in place. *)
Definition sort_Slice (x : slice) (less : linter.Config -> linter.Config -> bool)
    : M St unit :=
  fun w => (tt, setHeap (<[x := sortSlice less (elems x w)]> (heap w)) w).

(** The closure [func(i, j int) bool { return ret[i].GetSpeed() < ret[j].GetSpeed() }],
    on the elements it reads. *)
Definition lessSpeed (a b : linter.Config) : bool :=
  (linter.GetSpeed a <? linter.GetSpeed b)%Z.

Definition getSortedLintersConfigs (linters : slice) : M St slice :=
  do n <- (do l <- deref linters; ret (length l));
  do ret_ <- make n;
  do _ <- copy ret_ linters;
  do _ <- sort_Slice ret_ lessSpeed;
  ret ret_.

(** [tasksCh <- lc] on a channel whose buffer has room. *)
Definition send {A} (ch : list A) (x : A) : list A := ch ++ [x].

(** Lines 174-178 of [runWorkers]: the content of [tasksCh] when it is closed. *)
Definition dispatch (linters : slice) : M St (list linter.Config) :=
  do lcs <- getSortedLintersConfigs linters;
  do lcs <- deref lcs;
  ret (fold_left send lcs []).

Variable Duration_String : time.Duration -> string.

(** [workersFinishTimes] once every worker has stored [time.Now()] at its
    index; [now i] is the clock read by worker [i]. *)
Definition finishTimes (c : nat) (now : nat -> time.Time) : list time.Time :=
  fold_left (fun ts i => <[i := now i]> ts) (seq 0 c) (replicate c 0%Z).

(** [runWorkers] under the schedule in which the tasks are run one after
    the other in queue order: worker 1 empties the queue and the other
    workers find it closed.  With [Concurrency] 1 this is the only schedule;
    with more workers it is one of those the program admits, and what is
    stated of the order of arrival or of the log is stated at
    [Concurrency] 1.  The result is the content of [lintResultsCh] when it
    is closed, or the panic of the goroutine that reports the statistics. *)
Definition runWorkers (ctx : context.Context) (lintCtx : linter.Context)
    (linters : slice) (now : nat -> time.Time) : M St (outcome (list lintRes)) :=
  let c := linter.Concurrency lintCtx in
  if (c <? 0)%Z then ret (Panic "makeslice: len out of range") else
  do tasksCh <- dispatch linters;
  do lintResultsCh <-
    (if (c =? 0)%Z then ret []
     else runWorker (context.doneAfter ctx) lintCtx tasksCh "worker.1");
  do _ <- forEach (seq 2 (Z.to_nat c - 1)) (fun i =>
            do _ <- runWorker (context.doneAfter ctx) lintCtx [] ("worker." +:+ pretty i);
            ret tt);
  let workersFinishTimes := finishTimes (Z.to_nat c) now in
  do stat <- logWorkersStat Duration_String workersFinishTimes;
  match stat with
  | Panic msg => ret (Panic msg)
  | Ok _ => ret (Ok lintResultsCh)
  end.
End Dispatch.

(** ** The result-processing pipeline *)

Section Pipeline.
Context {St : Type} `{SW : timeutils.Stopwatch}.

(** [p.Process(issues)] *)
Definition callProcess (p : processors.Processor St) (issues : Issues)
    : M St (Issues * option error) :=
  fun w =>
    let (r, s') := processors.Process p issues (store w) in
    (r, mkWorld (log w) (stages w) s'
                (calls w ++ [CallProcess (processors.Name p)]) (heap w)).

(** [p.Finish()] *)
Definition callFinish (p : processors.Processor St) : M St unit :=
  fun w =>
    (tt, mkWorld (log w) (stages w) (processors.Finish p (store w))
                 (calls w ++ [CallFinish (processors.Name p)]) (heap w)).

(** The body of the loop of [processIssues] for the processor [p]. *)
Definition processStep (sw : string) (issues : Issues) (p : processors.Processor St)
    : M St Issues :=
  do '(newIssues, err) <- TrackStage sw (processors.Name p) (callProcess p issues);
  do issues <-
    match err with
    | Some e =>
        do _ <- Warnf ("Can't process result by " +:+ processors.Name p
                       +:+ " processor: " +:+ e);
        ret issues
    | None => ret newIssues
    end;
  ret (match issues with
       | None => Some []              (* [issues == nil] *)
       | Some _ => issues
       end).

Definition processIssues (r : Runner St) (issues : Issues) (sw : string) : M St Issues :=
  forEachWith (Processors r) (processStep sw) issues.

(** [for res := range inCh { ... }], with the content of [outCh] so far. *)
Fixpoint processLoop (r : Runner St) (sw : string) (inCh outCh : list lintRes)
    : M St (list lintRes) :=
  match inCh with
  | [] => ret outCh
  | res :: inCh' =>
      match err res with
      | Some e =>
          do _ <- Warnf ("Can't run linter "
                         +:+ linter.Name (linter.Linter (linter_ res)) +:+ ": " +:+ e);
          processLoop r sw inCh' outCh                                 (* continue *)
      | None =>
          if negb (len (issues res) =? 0)
          then
            do issues' <- processIssues r (issues res) sw;
            processLoop r sw inCh' (send outCh (mkLintRes (linter_ res) (err res) issues'))
          else processLoop r sw inCh' outCh
      end
  end.

(** The finalization loop. *)
Definition finishAll (r : Runner St) (sw : string) : M St unit :=
  forEach (Processors r) (fun p => TrackStage sw (processors.Name p) (callFinish p)).

(** The content of the returned channel when the goroutine closes it. *)
Definition processLintResults (r : Runner St) (inCh : list lintRes) : M St (list lintRes) :=
  let sw := "processing" in
  do outCh <- processLoop r sw inCh [];
  do _ <- finishAll r sw;
  do _ <- sw_PrintStages sw;
  ret outCh.

Fixpoint collectLoop (resCh : list lintRes) (retIssues : list result.Issue)
    : list result.Issue :=
  match resCh with
  | [] => retIssues
  | res :: resCh' =>
      if len (issues res) =? 0
      then collectLoop resCh' retIssues                                (* continue *)
      else collectLoop resCh' (fold_left send (default [] (issues res)) retIssues)
  end.

Definition collectIssues (resCh : list lintRes) : list result.Issue :=
  collectLoop resCh [].

(** [for range ch { n++ }] receives until [ch] is closed and empty; the
    result is the count and what is left in the channel. *)
Fixpoint rangeCount {A} (ch : list A) (n : nat) : nat * list A :=
  match ch with
  | [] => (n, [])
  | _ :: ch' => rangeCount ch' (S n)
  end.

Variable sortSlice :
  (linter.Config -> linter.Config -> bool) -> list linter.Config -> list linter.Config.
Variable Duration_String : time.Duration -> string.

Definition deadlineMessage (finishedLintersN total : nat) : string :=
  pretty finishedLintersN +:+ "/" +:+ pretty total
  +:+ " linters finished: deadline exceeded: try increase it by passing --deadline option".

(** The findings sent on the returned channel, or the panic of the
    statistics goroutine. *)
Definition Run (r : Runner St) (ctx : context.Context) (linters : slice)
    (lintCtx : linter.Context) (now : nat -> time.Time)
    : M St (outcome (list result.Issue)) :=
  do lintResultsCh <- runWorkers sortSlice Duration_String ctx lintCtx linters now;
  match lintResultsCh with
  | Panic msg => ret (Panic msg)
  | Ok lintResultsCh =>
      do processedLintResultsCh <- processLintResults r lintResultsCh;
      do processedLintResultsCh <-
        (if context.ErrInRun ctx
         then
           let (finishedLintersN, drained) := rangeCount processedLintResultsCh 0 in
           do total <- (do l <- deref linters; ret (length l));
           do _ <- Errorf (deadlineMessage finishedLintersN total);
           ret drained
         else ret processedLintResultsCh);
      ret (Ok (collectIssues processedLintResultsCh))
  end.
End Pipeline.

(** ** A sort that meets the contract of [sort.Slice] *)

Fixpoint insertBy {A} (less : A -> A -> bool) (x : A) (l : list A) : list A :=
  match l with
  | [] => [x]
  | y :: l' => if less x y then x :: y :: l' else y :: insertBy less x l'
  end.

Definition insertionSort {A} (less : A -> A -> bool) (l : list A) : list A :=
  fold_right (insertBy less) [] l.

(** [less] is a strict weak ordering, as [sort.Slice] requires. *)
Record StrictWeakOrder {A} (less : A -> A -> bool) : Prop := {
  swo_irrefl : forall a, less a a = false;
  swo_trans : forall a b c, less a b = true -> less b c = true -> less a c = true;
  swo_incomparable : forall a b c,
    less a b = false -> less b c = false -> less a c = false
}.

(** The contract of [sort.Slice]: for a strict weak ordering the result is
    a permutation of the slice in which no element is less than the one
    before it. *)
Definition sortContract
    (sortSlice : (linter.Config -> linter.Config -> bool) ->
                 list linter.Config -> list linter.Config) : Prop :=
  forall less, StrictWeakOrder less ->
  forall l,
    Permutation l (sortSlice less l) /\
    Sorted (fun a b => less b a = false) (sortSlice less l).

(** ** Vocabulary of the statements *)

Section Vocabulary.
Context {St : Type}.

(** A raw record is forwarded when it has no error and at least one finding. *)
Definition forwarded (res : lintRes) : bool :=
  match err res with
  | Some _ => false
  | None => negb (len (issues res) =? 0)
  end.

Definition processCalls (r : Runner St) : list Call :=
  map (fun p => CallProcess (processors.Name p)) (Processors r).
Definition finishCalls (r : Runner St) : list Call :=
  map (fun p => CallFinish (processors.Name p)) (Processors r).

(** The record forwarded for the raw record [raw] when it arrives after the
    records [pre], in a run that starts in the world [w]: the task of
    [raw], no error, and as findings the output of the chain in the state
    the loop has reached after [pre]. *)
Definition forwardedRecord (r : Runner St) (sw : string) (pre : list lintRes)
    (raw : lintRes) (w : World St) : lintRes :=
  mkLintRes (linter_ raw) None
            (fst (processIssues r (issues raw) sw (snd (processLoop r sw pre [] w)))).

(** The warning logged for a raw record that carries the error [e]. *)
Definition runWarning (res : lintRes) (e : error) : Level * string :=
  (Warn, "Can't run linter " +:+ linter.Name (linter.Linter (linter_ res)) +:+ ": " +:+ e).
End Vocabulary.

(** ** Vocabulary of the worker pool *)

(** The tasks a worker starts, out of those in its queue: all of them when
    it never sees the cancellation signal, else those dequeued before it
    sees it. *)
Definition ranTasks (doneAfter : option nat) (tasksCh : list linter.Config)
    : list linter.Config :=
  match doneAfter with
  | None => tasksCh
  | Some k => take k tasksCh
  end.

(** The raw result of a task, read off the outcome of the analyzer. *)
Definition rawResult (lintCtx : linter.Context) (lc : linter.Config) : lintRes :=
  match linter.Run (linter.Linter lc)
          (linter.mkContext (linter.Concurrency lintCtx) (linter.Name (linter.Linter lc))) with
  | linter.Panics panicData _ => mkLintRes lc (Some ("panic occurred: " +:+ panicData)) None
  | linter.Returns _ (Some e) => mkLintRes lc (Some e) None
  | linter.Returns found None => mkLintRes lc None found
  end.

(** The stack traces logged for the tasks that panic. *)
Definition panicWarnings (lintCtx : linter.Context) (tasks : list linter.Config)
    : list (Level * string) :=
  flat_map (fun lc =>
    match linter.Run (linter.Linter lc)
            (linter.mkContext (linter.Concurrency lintCtx) (linter.Name (linter.Linter lc))) with
    | linter.Panics _ stack => [(Warn, "Panic stack trace: " +:+ stack)]
    | linter.Returns _ _ => []
    end) tasks.

(** No line of the log is at error severity. *)
Definition noErrorLine (l : list (Level * string)) : Prop :=
  Forall (fun entry => entry.1 <> Error) l.

(** The lines of a log that are at error severity. *)
Definition isErrorLine (entry : Level * string) : bool :=
  match entry.1 with
  | Error => true
  | _ => false
  end.

Definition errorLines (l : list (Level * string)) : list (Level * string) :=
  filter (fun entry => isErrorLine entry = true) l.

(** From [w] to [w'] the log has only grown, by lines below error severity. *)
Definition quietStep {St} (w w' : World St) : Prop :=
  exists added, log w' = log w ++ added /\ noErrorLine added.

(** The task of a raw record that the pipeline forwards. *)
Definition yieldsRecord (lintCtx : linter.Context) (lc : linter.Config) : bool :=
  match err (rawResult lintCtx lc) with
  | Some _ => false
  | None => negb (len (issues (rawResult lintCtx lc)) =? 0)
  end.

(** ** Example analyzers and processors, used to run the model *)

Definition issueAt (text : string) (line : Z) : result.Issue :=
  result.mkIssue "" text ("main.go", line).

(** An analyzer that reports one finding and leaves its tag empty. *)
Definition govet : linter.Config :=
  linter.mkConfig
    (linter.mkLinter "govet" (fun _ => linter.Returns (Some [issueAt "unreachable code" 7]) None))
    2.

(** An analyzer that panics. *)
Definition crasher : linter.Config :=
  linter.mkConfig
    (linter.mkLinter "crasher" (fun _ => linter.Panics "boom" "goroutine 7 [running]"))
    3.

(** An analyzer that finds nothing. *)
Definition quiet : linter.Config :=
  linter.mkConfig (linter.mkLinter "quiet" (fun _ => linter.Returns None None)) 1.

(** A processor that counts its calls and keeps every finding. *)
Definition keepAll : processors.Processor nat :=
  processors.mkProcessor "keep_all" (fun issues n => ((issues, None), S n)) (fun n => n).

(** A filter that rejects every finding and returns a nil slice. *)
Definition dropAll : processors.Processor nat :=
  processors.mkProcessor "drop_all" (fun _ n => ((None, None), S n)) (fun n => n).

(** A processor that always fails. *)
Definition failing : processors.Processor nat :=
  processors.mkProcessor "failing" (fun _ n => ((None, Some "no patch"), S n)) (fun n => n).

Definition nanoseconds (d : time.Duration) : string := pretty d +:+ "ns".

(** A stopwatch for the examples, on a clock that does not advance. *)
#[global] Instance stoppedClock : timeutils.Stopwatch :=
  timeutils.mkStopwatch
    (fun name stages => name +:+ " took 0s with " +:+ pretty (length stages) +:+ " stages")
    (fun name stages => name +:+ " took 0s with " +:+ pretty (length stages) +:+ " stages").

Definition emptyWorld (h : list (list linter.Config)) : World nat := mkWorld [] [] 0 [] h.

(** * Properties *)

(** ** The task executor *)

Lemma stampIterations_fst name ks arr v :
  fst (fold_left (stampIteration name) ks (arr, v)) = arr.
Proof.
  revert v. induction ks as [|k ks IH]; intros v; simpl; [reflexivity|].
  destruct (arr !! k); apply IH.
Qed.

(** The range loop leaves the slice as it found it. *)
Lemma stampLoop_id name issues : stampLoop name issues = issues.
Proof.
  destruct issues as [arr|]; simpl; [|reflexivity].
  now rewrite stampIterations_fst.
Qed.

Lemma runLinterSafe_success {St} lintCtx lc issues (w : World St) :
  linter.Run (linter.Linter lc)
    (linter.mkContext (linter.Concurrency lintCtx) (linter.Name (linter.Linter lc)))
  = linter.Returns issues None ->
  runLinterSafe lintCtx lc w = ((issues, None), w).
Proof.
  intros H. unfold runLinterSafe. rewrite H, stampLoop_id. reflexivity.
Qed.

(** C1: on a successful run every finding handed back should carry the
    analyzer's name as its tag.  The executor's range loop assigns the tag
    to a copy of each finding, so the slice it returns is the analyzer's
    own: for [govet], whose finding has an empty tag, the returned finding
    still has the empty tag. *)
Theorem runLinterSafe_tag_not_set :
  fst (runLinterSafe (linter.mkContext 1 "root") govet (emptyWorld []))
  = (Some [result.mkIssue "" "unreachable code" ("main.go", 7%Z)], None)
  /\ ~ (forall i, i ∈ default [] (fst (fst (runLinterSafe (linter.mkContext 1 "root")
                                      govet (emptyWorld []))))
           -> result.FromLinter i = linter.Name (linter.Linter govet)).
Proof.
  split; [reflexivity|].
  intros H. specialize (H (issueAt "unreachable code" 7)).
  assert (Hin : issueAt "unreachable code" 7
                ∈ default [] (fst (fst (runLinterSafe (linter.mkContext 1 "root")
                                         govet (emptyWorld []))))).
  { simpl. apply list_elem_of_here. }
  specialize (H Hin). discriminate H.
Qed.

(** C6: a panic of the analyzer becomes the error [panic occurred: <data>],
    the stack trace is logged at warning level, and the worker goes on: it
    publishes the error record and runs the tasks that follow. *)
Theorem runLinterSafe_recovers_panic {St} `{SW : timeutils.Stopwatch}
    lintCtx lc panicData stack (w : World St) :
  linter.Run (linter.Linter lc)
    (linter.mkContext (linter.Concurrency lintCtx) (linter.Name (linter.Linter lc)))
  = linter.Panics panicData stack ->
  let w1 := mkWorld (log w ++ [(Warn, "Panic stack trace: " +:+ stack)])
                    (stages w) (store w) (calls w) (heap w) in
  runLinterSafe lintCtx lc w = ((None, Some ("panic occurred: " +:+ panicData)), w1)
  /\ forall doneAfter rest name,
       doneAfter <> Some 0 ->
       let w2 := mkWorld (log w1) (stages w ++ [(name, linter.Name (linter.Linter lc))])
                         (store w) (calls w) (heap w) in
       fst (runWorker doneAfter lintCtx (lc :: rest) name w)
       = mkLintRes lc (Some ("panic occurred: " +:+ panicData)) None
         :: fst (runWorker (pred <$> doneAfter) lintCtx rest name w2).
Proof.
  intros H w1. split.
  - unfold runLinterSafe. rewrite H. reflexivity.
  - intros doneAfter rest name Hda w2. subst w2 w1.
    destruct doneAfter as [[|k]|]; [congruence| |];
      simpl; unfold bind, TrackStage, runLinterSafe; simpl; rewrite H; simpl;
      unfold bind, ret, Warnf, logf; simpl;
      match goal with |- context [runWorker ?d lintCtx rest name ?w'] =>
        destruct (runWorker d lintCtx rest name w') end; reflexivity.
Qed.

Lemma runLinterSafe_recovers_panic_witness :
  fst (runLinterSafe (linter.mkContext 1 "root") crasher (emptyWorld []))
  = (None, Some "panic occurred: boom")
  /\ map err (fst (runWorker None (linter.mkContext 1 "root") [crasher; govet]
                            "worker.1" (emptyWorld [])))
     = [Some "panic occurred: boom"; None].
Proof.
  pose proof (runLinterSafe_recovers_panic (linter.mkContext 1 "root") crasher
                "boom" "goroutine 7 [running]" (emptyWorld []) eq_refl) as [H Hnext].
  split.
  - rewrite H. reflexivity.
  - rewrite (Hnext None [govet] "worker.1" ltac:(discriminate)). reflexivity.
Defined.

(** ** Worker statistics *)

Section WorkersStatFacts.
Variable Duration_String : time.Duration -> string.

Lemma lastOf_ge ts : forall t0,
  (t0 <= lastOf t0 ts)%Z /\ Forall (fun t => (t <= lastOf t0 ts)%Z) ts.
Proof.
  induction ts as [|t ts IH]; intros t0; simpl.
  - split; [lia|constructor].
  - unfold time.After. destruct (Z.ltb_spec t0 t) as [Hlt|Hge].
    + destruct (IH t) as [H1 H2]. split; [lia|]. constructor; assumption.
    + destruct (IH t0) as [H1 H2]. split; [assumption|]. constructor; [lia|assumption].
Qed.

Lemma lastOf_elem ts : forall t0, lastOf t0 ts ∈ t0 :: ts.
Proof.
  induction ts as [|t ts IH]; intros t0; simpl.
  - apply list_elem_of_here.
  - destruct (time.After t t0).
    + apply list_elem_of_further, IH.
    + specialize (IH t0). apply elem_of_cons in IH as [->|IH].
      * apply list_elem_of_here.
      * do 2 apply list_elem_of_further. exact IH.
Qed.

Lemma idleLoop_spec last ts : forall i acc,
  idleLoop Duration_String last i ts acc
  = acc ++ map (fun it => idleLine Duration_String last it.1 it.2)
               (filter (fun it => it.2 <> last) (imap (fun k t => (i + k, t)) ts)).
Proof.
  induction ts as [|t ts IH]; intros i acc; simpl.
  - now rewrite app_nil_r.
  - rewrite filter_cons. simpl. unfold time.Equal.
    rewrite (imap_ext _ (fun k t => (S i + k, t))) by (intros; simpl; f_equal; lia).
    destruct (Z.eqb_spec t last) as [Heq|Hne].
    + rewrite decide_False by (simpl; intros Hc; apply Hc, Heq).
      apply IH.
    + rewrite decide_True by exact Hne.
      rewrite IH. simpl. rewrite Nat.add_0_r, <- app_assoc. reflexivity.
Qed.

Lemma idleLoop_report last ts :
  idleLoop Duration_String last 0 ts []
  = map (fun it => idleLine Duration_String last it.1 it.2)
        (filter (fun it => it.2 <> last) (imap pair ts)).
Proof.
  rewrite idleLoop_spec. rewrite app_nil_l.
  rewrite (imap_ext _ pair); [reflexivity|]. intros; reflexivity.
Qed.

Lemma length_finishTimes c now : length (finishTimes c now) = c.
Proof.
  unfold finishTimes.
  assert (H : forall ks ts, length (fold_left (fun ts i => <[i := now i]> ts) ks ts)
                            = length ts).
  { induction ks as [|k ks IH]; intros ts; simpl; [reflexivity|].
    rewrite IH. apply length_insert. }
  rewrite H. apply length_replicate.
Qed.

Lemma logWorkersStat_isOk {St} ts (w : World St) :
  isOk (fst (logWorkersStat Duration_String ts w)) = negb (length ts =? 0).
Proof.
  unfold logWorkersStat. destruct ts as [|t ts]; reflexivity.
Qed.
End WorkersStatFacts.

(** C8, as amended: the idle time of a worker is measured from the latest
    finish time, and every worker whose finish time equals it is left out
    of the report: the report has one line, in order, for each worker that
    finished strictly earlier, and the idle time of a reported worker is
    never zero. *)
Theorem logWorkersStat_reports_earlier_workers {St}
    (Duration_String : time.Duration -> string)
    (t0 : time.Time) (rest : list time.Time) (w : World St) :
  let times := t0 :: rest in
  let last := lastOf t0 times in
  let reported := filter (fun it => it.2 <> last) (imap pair times) in
  Forall (fun t => (t <= last)%Z) times
  /\ last ∈ times
  /\ logWorkersStat Duration_String times w
     = (Ok tt,
        mkWorld (log w ++ [(Info, "Workers idle times: "
                   +:+ Join (map (fun it => idleLine Duration_String last it.1 it.2) reported)
                            ", ")])
                (stages w) (store w) (calls w) (heap w))
  /\ Forall (fun it => (0 < time.Sub last it.2)%Z) reported.
Proof.
  intros times last reported.
  assert (Hmax : Forall (fun t => (t <= last)%Z) times) by apply lastOf_ge.
  split; [exact Hmax|]. split.
  { subst last times. simpl. unfold time.After. rewrite Z.ltb_irrefl.
    apply lastOf_elem. }
  split.
  { unfold logWorkersStat. change (times !! 0) with (Some t0). cbv beta iota.
    fold last. rewrite idleLoop_report. reflexivity. }
  apply Forall_forall. intros [i t] Hin. apply list_elem_of_filter in Hin as [Hne Hin].
  simpl in Hne |- *. apply elem_of_lookup_imap in Hin as (k & t' & Heq & Hk).
  injection Heq as -> ->.
  assert (Hle : (t' <= last)%Z).
  { rewrite Forall_forall in Hmax. apply Hmax. eapply list_elem_of_lookup_2, Hk. }
  unfold time.Sub, time.minDuration, time.maxDuration. lia.
Qed.

(** C8, as stated, fails: when workers 1 and 2 tie for the latest finish
    time, both are left out of the report, not one of them. *)
Lemma logWorkersStat_ties_all_excluded :
  log (snd (logWorkersStat nanoseconds [5; 5; 3]%Z (emptyWorld [])))
  = [(Info, "Workers idle times: #3: 2ns")]
  /\ idleLoop nanoseconds 5%Z 0 [5; 5; 3]%Z [] = ["#3: 2ns"]
  /\ length (idleLoop nanoseconds 5%Z 0 [5; 5; 3]%Z []) <> length [5; 5; 3]%Z - 1.
Proof.
  split; [reflexivity|]. split; [reflexivity|]. simpl. lia.
Qed.

(** C9: the statistics step reads index 0 of the finish-time list, which
    has one entry per worker; the read is in bounds exactly when the
    configured concurrency is at least 1, and with concurrency 0 it panics
    with an index out of range. *)
Theorem logWorkersStat_index_in_bounds {St} `{SW : timeutils.Stopwatch}
    (sortSlice : (linter.Config -> linter.Config -> bool) ->
                 list linter.Config -> list linter.Config)
    (Duration_String : time.Duration -> string)
    (ctx : context.Context) (c : Z) (logger : string) (linters : slice)
    (now : nat -> time.Time) (w : World St) :
  bool_decide (is_Some (finishTimes (Z.to_nat c) now !! 0)) = (1 <=? c)%Z
  /\ isOk (fst (logWorkersStat Duration_String (finishTimes (Z.to_nat c) now) w))
     = (1 <=? c)%Z
  /\ isOk (fst (runWorkers sortSlice Duration_String ctx (linter.mkContext c logger)
                           linters now w))
     = (1 <=? c)%Z
  /\ fst (runWorkers sortSlice Duration_String ctx (linter.mkContext 0 logger)
                     linters now w)
     = Panic "index out of range [0] with length 0".
Proof.
  assert (Hlen : (length (finishTimes (Z.to_nat c) now) =? 0) = negb (1 <=? c)%Z).
  { rewrite length_finishTimes.
    destruct (Z.leb_spec 1 c); simpl.
    - apply Nat.eqb_neq. lia.
    - apply Nat.eqb_eq. lia. }
  assert (Hstat : forall w' : World St,
             isOk (fst (logWorkersStat Duration_String (finishTimes (Z.to_nat c) now) w'))
             = (1 <=? c)%Z).
  { intros w'. rewrite logWorkersStat_isOk, Hlen. apply negb_involutive. }
  split; [|split; [apply Hstat|split]].
  - destruct (finishTimes (Z.to_nat c) now) as [|t ts] eqn:E; simpl in Hlen |- *.
    + destruct (1 <=? c)%Z; [discriminate Hlen|reflexivity].
    + destruct (1 <=? c)%Z; [reflexivity|discriminate Hlen].
  - unfold runWorkers. cbn [linter.Concurrency].
    destruct (c <? 0)%Z eqn:Hneg.
    + apply Z.ltb_lt in Hneg. simpl. symmetry. apply Z.leb_gt. lia.
    + unfold bind.
      destruct (dispatch sortSlice linters w) as [tasksCh w1].
      destruct ((if (c =? 0)%Z then ret []
                 else runWorker (context.doneAfter ctx) (linter.mkContext c logger)
                                tasksCh "worker.1") w1) as [lintResultsCh w2].
      destruct (forEach (seq 2 (Z.to_nat c - 1)) _ w2) as [others w2'].
      specialize (Hstat w2').
      destruct (logWorkersStat Duration_String (finishTimes (Z.to_nat c) now) w2')
        as [[u|msg] w3]; simpl in Hstat |- *; exact Hstat.
  - unfold runWorkers. simpl. unfold bind.
    destruct (dispatch sortSlice linters w) as [tasksCh w1]. reflexivity.
Qed.

(** ** Sorting and dispatch *)

Lemma insertBy_Permutation {A} (less : A -> A -> bool) x l :
  Permutation (x :: l) (insertBy less x l).
Proof.
  induction l as [|y l IH]; simpl; [reflexivity|].
  destruct (less x y); [reflexivity|].
  rewrite perm_swap. now constructor.
Qed.

Lemma insertBy_Sorted {A} (less : A -> A -> bool) x l :
  StrictWeakOrder less ->
  Sorted (fun a b => less b a = false) l ->
  Sorted (fun a b => less b a = false) (insertBy less x l).
Proof.
  intros Hswo. induction l as [|y l IH]; intros Hs; simpl.
  - repeat constructor.
  - destruct (less x y) eqn:Hxy.
    + constructor; [exact Hs|]. constructor.
      destruct (less y x) eqn:Hyx; [|reflexivity].
      pose proof (swo_trans _ Hswo _ _ _ Hxy Hyx) as Hxx.
      rewrite (swo_irrefl _ Hswo) in Hxx. discriminate.
    + apply Sorted_inv in Hs as [Hs Hhd]. constructor; [apply IH, Hs|].
      destruct l as [|z l]; simpl.
      * constructor. exact Hxy.
      * apply HdRel_inv in Hhd. destruct (less x z); constructor; assumption.
Qed.

Lemma insertionSort_contract : sortContract insertionSort.
Proof.
  intros less Hswo l. induction l as [|x l [IHp IHs]]; simpl.
  - split; constructor.
  - split.
    + rewrite <- insertBy_Permutation. now constructor.
    + apply insertBy_Sorted; assumption.
Qed.

Lemma lessSpeed_StrictWeakOrder : StrictWeakOrder lessSpeed.
Proof.
  unfold lessSpeed. split; intros *.
  - apply Z.ltb_irrefl.
  - rewrite !Z.ltb_lt. lia.
  - rewrite !Z.ltb_ge. lia.
Qed.

Lemma sends_all {A} (l : list A) : forall ch, fold_left send l ch = ch ++ l.
Proof.
  induction l as [|x l IH]; intros ch; simpl.
  - now rewrite app_nil_r.
  - rewrite IH. unfold send. now rewrite <- app_assoc.
Qed.

(** What [getSortedLintersConfigs] does to the heap: it allocates one
    array, which ends up holding the sorted elements. *)
Lemma getSortedLintersConfigs_spec {St} sortSlice linters l (w : World St) :
  heap w !! linters = Some l ->
  getSortedLintersConfigs sortSlice linters w
  = (length (heap w), setHeap (heap w ++ [sortSlice lessSpeed l]) w).
Proof.
  intros Hl.
  assert (Hlt : linters < length (heap w)) by (eapply lookup_lt_Some; eauto).
  unfold getSortedLintersConfigs, bind, ret, deref, make, copy, sort_Slice, elems, setHeap.
  simpl. rewrite Hl. simpl.
  assert (H1 : forall x : list linter.Config, (heap w ++ [x]) !! linters = Some l).
  { intros x. rewrite lookup_app_l by exact Hlt. exact Hl. }
  assert (H2 : forall x : list linter.Config, (heap w ++ [x]) !! length (heap w) = Some x).
  { intros x. apply list_lookup_middle. reflexivity. }
  assert (H3 : forall x y : list linter.Config,
             <[length (heap w) := y]> (heap w ++ [x]) = heap w ++ [y]).
  { intros x y. rewrite insert_app_r_alt by lia. now rewrite Nat.sub_diag. }
  rewrite H1, H2. simpl.
  rewrite length_replicate, Nat.min_id, take_ge, drop_ge by (rewrite ?length_replicate; lia).
  rewrite app_nil_r, !H3, H2. reflexivity.
Qed.

Lemma Sorted_lookup_le (l : list linter.Config) :
  Sorted (fun a b => lessSpeed b a = false) l ->
  forall i j a b, i < j -> l !! i = Some a -> l !! j = Some b ->
    (linter.GetSpeed a <= linter.GetSpeed b)%Z.
Proof.
  intros Hs. apply Sorted_StronglySorted in Hs.
  2:{ intros x y z. unfold lessSpeed. rewrite !Z.ltb_ge. lia. }
  induction Hs as [|x l Hs IH Hall]; intros i j a b Hij Hi Hj.
  - rewrite lookup_nil in Hi. discriminate.
  - destruct j as [|j]; [lia|]. simpl in Hj. destruct i as [|i]; simpl in Hi.
    + injection Hi as ->. rewrite Forall_forall in Hall.
      assert (Hb : lessSpeed b a = false).
      { apply Hall. eapply list_elem_of_lookup_2, Hj. }
      unfold lessSpeed in Hb. apply Z.ltb_ge in Hb. exact Hb.
    + eapply IH; [|exact Hi|exact Hj]. lia.
Qed.

(** C10: the sort works on a copy.  After [getSortedLintersConfigs] the
    caller's slice holds the same elements in the same order, as does every
    array that existed before the call; the result is a new array. *)
Theorem getSortedLintersConfigs_preserves_input {St}
    (sortSlice : (linter.Config -> linter.Config -> bool) ->
                 list linter.Config -> list linter.Config)
    (linters : slice) (l : list linter.Config) (w : World St) :
  heap w !! linters = Some l ->
  let (ret_, w') := getSortedLintersConfigs sortSlice linters w in
  heap w' !! linters = Some l
  /\ ret_ <> linters
  /\ (forall s, s < length (heap w) -> heap w' !! s = heap w !! s).
Proof.
  intros Hl. rewrite (getSortedLintersConfigs_spec _ _ _ _ Hl). simpl.
  assert (Hlt : linters < length (heap w)) by (eapply lookup_lt_Some; eauto).
  split; [|split].
  - rewrite lookup_app_l by exact Hlt. exact Hl.
  - lia.
  - intros s Hs. now rewrite lookup_app_l.
Qed.

Lemma getSortedLintersConfigs_preserves_input_witness :
  let (ret_, w') :=
    getSortedLintersConfigs insertionSort 0 (emptyWorld [[crasher; govet; quiet]]) in
  heap w' !! 0 = Some [crasher; govet; quiet]
  /\ ret_ <> 0
  /\ (forall s, s < 1 -> heap w' !! s = [[crasher; govet; quiet]] !! s).
Proof.
  apply (getSortedLintersConfigs_preserves_input insertionSort 0
           [crasher; govet; quiet] (emptyWorld [[crasher; govet; quiet]])).
  reflexivity.
Defined.

Lemma dispatch_spec {St} sortSlice linters l (w : World St) :
  heap w !! linters = Some l ->
  dispatch sortSlice linters w
  = (sortSlice lessSpeed l, setHeap (heap w ++ [sortSlice lessSpeed l]) w).
Proof.
  intros Hl. unfold dispatch, bind.
  rewrite (getSortedLintersConfigs_spec _ _ _ _ Hl).
  unfold deref, elems, ret. simpl.
  rewrite list_lookup_middle by reflexivity. simpl.
  now rewrite sends_all.
Qed.

(** C7: the tasks are put on the queue in ascending order of expected
    speed: the content of the queue is a permutation of the caller's list
    and a task never has a greater speed than one enqueued after it. *)
Theorem dispatch_sorted_permutation {St}
    (sortSlice : (linter.Config -> linter.Config -> bool) ->
                 list linter.Config -> list linter.Config)
    (linters : slice) (l : list linter.Config) (w : World St) :
  sortContract sortSlice ->
  heap w !! linters = Some l ->
  let tasksCh := fst (dispatch sortSlice linters w) in
  Permutation l tasksCh
  /\ forall i j a b, i < j -> tasksCh !! i = Some a -> tasksCh !! j = Some b ->
       (linter.GetSpeed a <= linter.GetSpeed b)%Z.
Proof.
  intros Hsort Hl. rewrite (dispatch_spec _ _ _ _ Hl). simpl.
  destruct (Hsort lessSpeed lessSpeed_StrictWeakOrder l) as [Hperm Hsorted].
  split; [exact Hperm|]. apply Sorted_lookup_le. exact Hsorted.
Qed.

Lemma dispatch_sorted_permutation_witness :
  let tasksCh := fst (dispatch insertionSort 0 (emptyWorld [[crasher; govet; quiet]])) in
  tasksCh = [quiet; govet; crasher]
  /\ Permutation [crasher; govet; quiet] tasksCh
  /\ forall i j a b, i < j -> tasksCh !! i = Some a -> tasksCh !! j = Some b ->
       (linter.GetSpeed a <= linter.GetSpeed b)%Z.
Proof.
  split; [reflexivity|].
  apply (dispatch_sorted_permutation insertionSort 0 [crasher; govet; quiet]
           (emptyWorld [[crasher; govet; quiet]]) insertionSort_contract).
  reflexivity.
Defined.

(** ** The processor chain *)

Section PipelineFacts.
Context {St : Type}.
Implicit Types (r : Runner St) (p : processors.Processor St) (w : World St).

Lemma forEachWith_app {A V} (l1 l2 : list A) (body : V -> A -> M St V) v w :
  forEachWith (l1 ++ l2) body v w
  = let (v1, w1) := forEachWith l1 body v w in forEachWith l2 body v1 w1.
Proof.
  revert v w. induction l1 as [|x l1 IH]; intros v w; simpl; [reflexivity|].
  unfold bind. destruct (body v x w) as [v' w']. apply IH.
Qed.

(** What one processor invocation does, case by case. *)
Lemma processStep_spec sw issues p w :
  let '((newIssues, e), s') := processors.Process p issues (store w) in
  let kept := match e with Some _ => issues | None => newIssues end in
  let warned := match e with
                | Some msg => [(Warn, "Can't process result by " +:+ processors.Name p
                                      +:+ " processor: " +:+ msg)]
                | None => []
                end in
  processStep sw issues p w
  = (Some (default [] kept),
     mkWorld (log w ++ warned) (stages w ++ [(sw, processors.Name p)]) s'
             (calls w ++ [CallProcess (processors.Name p)]) (heap w)).
Proof.
  unfold processStep, bind, TrackStage, callProcess. simpl.
  destruct (processors.Process p issues (store w)) as [[newIssues [msg|]] s']; simpl.
  - unfold bind, Warnf, logf, ret. simpl. destruct issues; reflexivity.
  - unfold ret. rewrite app_nil_r. destruct newIssues; reflexivity.
Qed.

Lemma processStep_calls sw issues p w :
  calls (snd (processStep sw issues p w))
  = calls w ++ [CallProcess (processors.Name p)].
Proof.
  pose proof (processStep_spec sw issues p w) as H.
  destruct (processors.Process p issues (store w)) as [[newIssues e] s'].
  rewrite H. reflexivity.
Qed.

Lemma processStep_log sw issues p w :
  log w `prefix_of` log (snd (processStep sw issues p w)).
Proof.
  pose proof (processStep_spec sw issues p w) as H.
  destruct (processors.Process p issues (store w)) as [[newIssues e] s'].
  rewrite H. simpl. apply prefix_app_r. reflexivity.
Qed.

Lemma processStep_not_nil sw issues p w :
  fst (processStep sw issues p w) <> None.
Proof.
  pose proof (processStep_spec sw issues p w) as H.
  destruct (processors.Process p issues (store w)) as [[newIssues e] s'].
  rewrite H. discriminate.
Qed.

Lemma processIssues_calls r sw issues w :
  calls (snd (processIssues r issues sw w))
  = calls w ++ map (fun p => CallProcess (processors.Name p)) (Processors r).
Proof.
  unfold processIssues. generalize (Processors r) as ps.
  intros ps. revert issues w.
  induction ps as [|p ps IH]; intros issues w; simpl.
  - now rewrite app_nil_r.
  - unfold bind. pose proof (processStep_calls sw issues p w) as Hc.
    destruct (processStep sw issues p w) as [issues' w']. simpl in Hc.
    rewrite IH, Hc, <- app_assoc. reflexivity.
Qed.

Lemma processIssues_log r sw issues w :
  log w `prefix_of` log (snd (processIssues r issues sw w)).
Proof.
  unfold processIssues. generalize (Processors r) as ps.
  intros ps. revert issues w.
  induction ps as [|p ps IH]; intros issues w; simpl.
  - reflexivity.
  - unfold bind. pose proof (processStep_log sw issues p w) as Hl.
    destruct (processStep sw issues p w) as [issues' w']. simpl in Hl.
    etransitivity; [exact Hl|apply IH].
Qed.

Lemma processIssues_not_nil r sw issues w :
  Processors r <> [] \/ issues <> None ->
  fst (processIssues r issues sw w) <> None.
Proof.
  unfold processIssues. generalize (Processors r) as ps.
  intros ps. revert issues w.
  induction ps as [|p ps IH]; intros issues w H; simpl.
  - destruct H as [H|H]; [congruence|exact H].
  - unfold bind. pose proof (processStep_not_nil sw issues p w) as Hn.
    destruct (processStep sw issues p w) as [issues' w']. simpl in Hn.
    apply IH. right. exact Hn.
Qed.


Lemma processLoop_calls r sw inCh : forall outCh w,
  let (out, w') := processLoop r sw inCh outCh w in
  exists k, length out = length outCh + k
    /\ calls w' = calls w ++ mjoin (replicate k (processCalls r)).
Proof.
  induction inCh as [|res inCh IH]; intros outCh w; simpl.
  - exists 0. simpl. rewrite app_nil_r. split; [lia|reflexivity].
  - destruct (err res) as [e|].
    + unfold bind, Warnf, logf. simpl.
      match goal with |- context [processLoop r sw inCh outCh ?w1] =>
        specialize (IH outCh w1) end.
      simpl in IH. exact IH.
    + destruct (len (issues res) =? 0); simpl; [apply IH|].
      unfold bind. pose proof (processIssues_calls r sw (issues res) w) as Hc.
      destruct (processIssues r (issues res) sw w) as [issues' w1]. simpl in Hc.
      specialize (IH (send outCh (mkLintRes (linter_ res) None issues')) w1).
      destruct (processLoop r sw inCh _ w1) as [out w'].
      destruct IH as (k & Hlen & Hcalls). exists (S k). split.
      * rewrite Hlen. unfold send. rewrite length_app. simpl. lia.
      * rewrite Hcalls, Hc. simpl. unfold processCalls.
        now rewrite <- app_assoc.
Qed.

Lemma finishAll_spec r sw w :
  finishAll r sw w
  = (tt, mkWorld (log w)
                 (stages w ++ map (fun p => (sw, processors.Name p)) (Processors r))
                 (fold_left (fun s p => processors.Finish p s) (Processors r) (store w))
                 (calls w ++ finishCalls r) (heap w)).
Proof.
  unfold finishAll, finishCalls. generalize (Processors r) as ps.
  intros ps. revert w. induction ps as [|p ps IH]; intros w; simpl.
  - unfold ret. rewrite !app_nil_r. destruct w; reflexivity.
  - unfold bind, TrackStage, callFinish. simpl. rewrite IH. simpl.
    rewrite <- !app_assoc. reflexivity.
Qed.
End PipelineFacts.

Lemma filter_no_finish (l : list Call) :
  Forall (fun c => isFinish c = false) l ->
  filter (fun c => isFinish c = true) l = [].
Proof.
  induction 1 as [|c l Hc _ IH]; [reflexivity|].
  rewrite filter_cons_False by (rewrite Hc; discriminate). exact IH.
Qed.

(** C5: [Finish] is called on every processor of the chain once, in chain
    order, after the last [Process] call of the run, whatever the number of
    records: the calls of a run are the chain's [Process] calls, once per
    forwarded record, followed by the chain's [Finish] calls, and the
    processors' final state is the state after the last record with every
    [Finish] applied once in chain order. *)
Theorem processLintResults_finishes_each_once {St} `{SW : timeutils.Stopwatch}
    (r : Runner St) (inCh : list lintRes) (w : World St) :
  let (outCh, w') := processLintResults r inCh w in
  let during := mjoin (replicate (length outCh) (processCalls r)) in
  calls w' = calls w ++ during ++ finishCalls r
  /\ Forall (fun c => isFinish c = false) during
  /\ filter (fun c => isFinish c = true) (during ++ finishCalls r)
     = map (fun p => CallFinish (processors.Name p)) (Processors r)
  /\ store w'
     = fold_left (fun s p => processors.Finish p s) (Processors r)
                 (store (snd (processLoop r "processing" inCh [] w)))
  /\ calls (snd (processLintResults r [] w)) = calls w ++ finishCalls r.
Proof.
  unfold processLintResults, bind.
  pose proof (processLoop_calls r "processing" inCh [] w) as Hloop.
  destruct (processLoop r "processing" inCh [] w) as [outCh w1].
  destruct Hloop as (k & Hlen & Hcalls). simpl in Hlen. subst k.
  rewrite !finishAll_spec. simpl.
  assert (Hduring : Forall (fun c => isFinish c = false)
                      (mjoin (replicate (length outCh) (processCalls r)))).
  { generalize (length outCh). intros n.
    induction n as [|n IH]; simpl; [constructor|].
    apply Forall_app. split; [|exact IH].
    unfold processCalls. apply Forall_forall. intros c Hc.
    apply list_elem_of_fmap in Hc as (p & -> & _). reflexivity. }
  split; [|split; [exact Hduring|split; [|split; [reflexivity|]]]].
  3:{ unfold ret. rewrite finishAll_spec. reflexivity. }
  - rewrite Hcalls, <- app_assoc. reflexivity.
  - rewrite filter_app.
    assert (H1 : filter (fun c => isFinish c = true)
                   (mjoin (replicate (length outCh) (processCalls r))) = []).
    { apply filter_no_finish, Hduring. }
    rewrite H1. simpl. unfold finishCalls.
    induction (Processors r) as [|p ps IH]; [reflexivity|].
    simpl. rewrite filter_cons_True by reflexivity. now rewrite IH.
Qed.

(** C4: when a processor fails, the findings stay as they were before it
    ran and the rest of the chain is applied to them; a nil result of a
    processor becomes the empty slice, and the chain never yields nil.
    Here [ps1] are the processors before [p] in the chain, [ps2] those
    after it, [mid] the findings that reach [p]. *)
Theorem processIssues_failure_keeps_findings {St}
    (ps1 ps2 : list (processors.Processor St)) (p : processors.Processor St)
    (issues0 : Issues) (sw : string) (w : World St) :
  let (mid, w1) := processIssues (mkRunner ps1) issues0 sw w in
  let '((newIssues, e), _) := processors.Process p mid (store w1) in
  let (after, w2) := processStep sw mid p w1 in
  processIssues (mkRunner (ps1 ++ p :: ps2)) issues0 sw w
  = processIssues (mkRunner ps2) after sw w2
  /\ (e <> None -> default [] after = default [] mid /\ (mid <> None -> after = mid))
  /\ (e = None -> newIssues = None -> after = Some [])
  /\ after <> None
  /\ fst (processIssues (mkRunner (ps1 ++ p :: ps2)) issues0 sw w) <> None.
Proof.
  unfold processIssues at 1 2. simpl Processors.
  rewrite forEachWith_app. simpl forEachWith.
  destruct (forEachWith ps1 (processStep sw) issues0 w) as [mid w1]. unfold bind.
  pose proof (processStep_spec sw mid p w1) as Hstep.
  destruct (processors.Process p mid (store w1)) as [[newIssues e] s'].
  simpl in Hstep. rewrite Hstep.
  split; [reflexivity|]. split; [|split; [|split]].
  - intros He. destruct e as [msg|]; [|congruence]. simpl. split.
    + reflexivity.
    + intros Hmid. destruct mid; [reflexivity|congruence].
  - intros -> ->. reflexivity.
  - discriminate.
  - apply processIssues_not_nil. left. simpl. destruct ps1; discriminate.
Qed.

Lemma processIssues_failure_keeps_findings_witness :
  let found := Some [issueAt "unreachable code" 7] in
  let w1 := snd (processIssues (mkRunner [keepAll]) found "processing" (emptyWorld [])) in
  fst (processStep "processing" found failing w1) = found.
Proof.
  pose proof (processIssues_failure_keeps_findings [keepAll] [keepAll] failing
                (Some [issueAt "unreachable code" 7]) "processing" (emptyWorld [])) as H.
  cbn in H. destruct H as (_ & Hkeep & _).
  destruct (Hkeep ltac:(discriminate)) as [_ Hsame].
  exact (Hsame ltac:(discriminate)).
Defined.

(** ** The processed-result stream *)

Section StreamFacts.
Context {St : Type}.
Implicit Types (r : Runner St) (w : World St).


Lemma processLoop_acc r sw inCh : forall outCh w,
  processLoop r sw inCh outCh w
  = let (out, w') := processLoop r sw inCh [] w in (outCh ++ out, w').
Proof.
  induction inCh as [|res inCh IH]; intros outCh w; simpl.
  - unfold ret. now rewrite app_nil_r.
  - destruct (err res) as [e|].
    + unfold bind. destruct (Warnf _ w) as [u w1]. apply IH.
    + destruct (len (issues res) =? 0); simpl; [apply IH|].
      unfold bind. destruct (processIssues r (issues res) sw w) as [found' w1].
      rewrite IH. rewrite (IH (send [] _)).
      destruct (processLoop r sw inCh [] w1) as [out w']. unfold send.
      now rewrite <- app_assoc.
Qed.

Lemma processLoop_app r sw a b : forall outCh w,
  processLoop r sw (a ++ b) outCh w
  = let (out, w1) := processLoop r sw a outCh w in processLoop r sw b out w1.
Proof.
  induction a as [|res a IH]; intros outCh w; simpl; [reflexivity|].
  destruct (err res) as [e|].
  - unfold bind. destruct (Warnf _ w) as [u w1]. apply IH.
  - destruct (len (issues res) =? 0); simpl; [apply IH|].
    unfold bind. destruct (processIssues r (issues res) sw w) as [found' w1]. apply IH.
Qed.

(** The forwarded records: one per raw record without error and with a
    finding, for the same task, without error and with a non-nil slice. *)
Lemma processLoop_forwards r sw inCh : forall outCh w,
  exists new,
    fst (processLoop r sw inCh outCh w) = outCh ++ new
    /\ map linter_ new = map linter_ (filter (fun res => forwarded res = true) inCh)
    /\ Forall (fun res => err res = None /\ issues res <> None) new.
Proof.
  induction inCh as [|res inCh IH]; intros outCh w; simpl.
  - exists []. rewrite app_nil_r. repeat split; constructor.
  - destruct (err res) as [e|] eqn:He.
    + rewrite filter_cons_False by (unfold forwarded; rewrite He; discriminate).
      unfold bind, Warnf, logf. simpl. apply IH.
    + destruct (len (issues res) =? 0) eqn:Hlen; simpl.
      * rewrite filter_cons_False by (unfold forwarded; rewrite He, Hlen; discriminate).
        apply IH.
      * rewrite filter_cons_True by (unfold forwarded; rewrite He, Hlen; reflexivity).
        unfold bind.
        pose proof (processIssues_not_nil r sw (issues res) w) as Hnn.
        destruct (processIssues r (issues res) sw w) as [issues' w1] eqn:Hp.
        destruct (IH (send outCh (mkLintRes (linter_ res) None issues')) w1)
          as (new & Hout & Hmap & Hall).
        exists (mkLintRes (linter_ res) None issues' :: new). split; [|split].
        -- rewrite Hout. unfold send. now rewrite <- app_assoc.
        -- simpl. now rewrite Hmap.
        -- constructor; [|exact Hall]. split; [reflexivity|]. simpl.
           apply Hnn. right. intros Hnil. rewrite Hnil in Hlen. discriminate.
Qed.

Lemma processLoop_length r sw inCh w :
  length (fst (processLoop r sw inCh [] w))
  = length (filter (fun res => forwarded res = true) inCh).
Proof.
  destruct (processLoop_forwards r sw inCh [] w) as (new & Hout & Hmap & _).
  rewrite Hout. simpl. apply (f_equal length) in Hmap. now rewrite !length_map in Hmap.
Qed.

(** The record forwarded for [raw] sits after those forwarded for the
    records before it, and holds the chain's output in the state they left. *)
Lemma processLoop_lookup r sw pre raw post w :
  forwarded raw = true ->
  fst (processLoop r sw (pre ++ raw :: post) [] w)
    !! length (filter (fun res => forwarded res = true) pre)
  = Some (forwardedRecord r sw pre raw w)
  /\ issues (forwardedRecord r sw pre raw w) <> None.
Proof.
  intros Hfw. unfold forwardedRecord. rewrite processLoop_app.
  pose proof (processLoop_length r sw pre w) as Hlen.
  destruct (processLoop r sw pre [] w) as [out1 w1]. simpl in Hlen |- *.
  unfold forwarded in Hfw. destruct (err raw) as [e|] eqn:He; [discriminate|].
  destruct (len (issues raw) =? 0) eqn:Hl; [discriminate|]. simpl.
  unfold bind.
  pose proof (processIssues_not_nil r sw (issues raw) w1) as Hnn.
  destruct (processIssues r (issues raw) sw w1) as [found w2]. simpl in Hnn |- *.
  rewrite processLoop_acc.
  destruct (processLoop r sw post [] w2) as [out2 w3]. simpl. split.
  - unfold send. rewrite <- app_assoc, <- Hlen. simpl.
    now apply list_lookup_middle.
  - apply Hnn. right. intros Hnil. rewrite Hnil in Hl. discriminate.
Qed.

Lemma processLoop_log r sw inCh : forall outCh w,
  log w `prefix_of` log (snd (processLoop r sw inCh outCh w)).
Proof.
  induction inCh as [|res inCh IH]; intros outCh w; simpl.
  - reflexivity.
  - destruct (err res) as [e|].
    + unfold bind, Warnf, logf. simpl.
      etransitivity; [|apply IH]. simpl. now apply prefix_app_r.
    + destruct (len (issues res) =? 0); simpl; [apply IH|].
      unfold bind. pose proof (processIssues_log r sw (issues res) w) as Hl.
      destruct (processIssues r (issues res) sw w) as [issues' w1]. simpl in Hl.
      etransitivity; [exact Hl|apply IH].
Qed.

Lemma processLoop_warns r sw inCh : forall outCh w res e,
  res ∈ inCh -> err res = Some e ->
  runWarning res e ∈ log (snd (processLoop r sw inCh outCh w)).
Proof.
  induction inCh as [|res0 inCh IH]; intros outCh w res e Hin He.
  - apply elem_of_nil in Hin. contradiction.
  - apply elem_of_cons in Hin as [<-|Hin]; simpl.
    + rewrite He. unfold bind, Warnf, logf. simpl.
      match goal with |- _ ∈ log (snd (processLoop r sw inCh outCh ?w1)) =>
        pose proof (processLoop_log r sw inCh outCh w1) as [k Hk] end.
      rewrite Hk. simpl. apply elem_of_app. left. apply elem_of_app. right.
      apply list_elem_of_here.
    + destruct (err res0) as [e0|].
      * unfold bind, Warnf, logf. simpl. eapply IH; eassumption.
      * destruct (len (issues res0) =? 0); simpl; [eapply IH; eassumption|].
        unfold bind. destruct (processIssues r (issues res0) sw w) as [issues' w1].
        eapply IH; eassumption.
Qed.

(** A raw record without error and without findings leaves no trace. *)
Lemma processLoop_skips_empty r sw pre res post : forall outCh w,
  err res = None -> len (issues res) = 0 ->
  processLoop r sw (pre ++ res :: post) outCh w = processLoop r sw (pre ++ post) outCh w.
Proof.
  intros outCh w He Hlen. revert outCh w.
  induction pre as [|res0 pre IH]; intros outCh w; simpl.
  - rewrite He, Hlen. reflexivity.
  - destruct (err res0) as [e0|].
    + unfold bind. destruct (Warnf _ w) as [u w1]. apply IH.
    + destruct (len (issues res0) =? 0); simpl; [apply IH|].
      unfold bind. destruct (processIssues r (issues res0) sw w) as [issues' w1].
      apply IH.
Qed.

(** The collector flattens the stream. *)
Lemma collectLoop_spec (resCh : list lintRes) : forall retIssues,
  collectLoop resCh retIssues
  = retIssues ++ mjoin (map (fun res => default [] (issues res)) resCh).
Proof.
  induction resCh as [|res resCh IH]; intros retIssues; simpl.
  - now rewrite app_nil_r.
  - destruct (issues res) as [[|i l]|]; simpl; try apply IH.
    rewrite IH, sends_all. unfold send. now rewrite <- !app_assoc.
Qed.

Lemma rangeCount_spec {A} (ch : list A) : forall n,
  rangeCount ch n = (n + length ch, []).
Proof.
  induction ch as [|x ch IH]; intros n; simpl.
  - now rewrite Nat.add_0_r.
  - rewrite IH. f_equal. lia.
Qed.
End StreamFacts.

(** C3, as amended: a raw record that carries an error is logged at
    warning level and not forwarded; a raw record without error and without
    findings is not forwarded and leaves no trace at all; every raw record
    without error and with at least one finding is forwarded, in arrival
    order, with the chain's output as its (non-nil) finding set, also when
    that output is empty: the output the chain gives in the state the
    records before it left.  The collector then flattens the forwarded
    records, so an empty one contributes no finding. *)
Theorem processLintResults_forwards_processed_records {St} `{SW : timeutils.Stopwatch}
    (r : Runner St) (inCh : list lintRes) (w : World St) :
  let (outCh, w') := processLintResults r inCh w in
  length outCh = length (filter (fun res => forwarded res = true) inCh)
  /\ (forall pre raw post,
        inCh = pre ++ raw :: post -> forwarded raw = true ->
        outCh !! length (filter (fun res => forwarded res = true) pre)
        = Some (forwardedRecord r "processing" pre raw w)
        /\ issues (forwardedRecord r "processing" pre raw w) <> None)
  /\ (forall res e, res ∈ inCh -> err res = Some e -> runWarning res e ∈ log w')
  /\ (forall pre res post,
        inCh = pre ++ res :: post -> err res = None -> len (issues res) = 0 ->
        processLintResults r (pre ++ post) w = (outCh, w'))
  /\ collectIssues outCh = mjoin (map (fun res => default [] (issues res)) outCh).
Proof.
  unfold processLintResults, bind.
  pose proof (processLoop_length r "processing" inCh w) as Hlen.
  pose proof (fun pre raw post => processLoop_lookup r "processing" pre raw post w) as Hat.
  pose proof (processLoop_warns r "processing" inCh [] w) as Hwarn.
  pose proof (fun pre res post => processLoop_skips_empty r "processing" pre res post [] w)
    as Hskip.
  destruct (processLoop r "processing" inCh [] w) as [outCh w1] eqn:Hloop.
  rewrite finishAll_spec. simpl in Hlen, Hwarn |- *.
  split; [exact Hlen|]. split; [|split; [|split]].
  - intros pre raw post -> Hfw. specialize (Hat pre raw post Hfw).
    rewrite Hloop in Hat. exact Hat.
  - intros res e Hin He. apply elem_of_app. left. exact (Hwarn res e Hin He).
  - intros pre res post -> He Hl.
    rewrite <- (Hskip pre res post He Hl), Hloop, finishAll_spec. reflexivity.
  - unfold collectIssues. now rewrite collectLoop_spec.
Qed.

Lemma processLintResults_forwards_processed_records_witness :
  let raw := [mkLintRes crasher (Some "panic occurred: boom") None;
              mkLintRes quiet None None;
              mkLintRes govet None (Some [issueAt "unreachable code" 7])] in
  let processed := processLintResults (mkRunner [keepAll]) raw (emptyWorld []) in
  (Warn, "Can't run linter crasher: panic occurred: boom") ∈ log (snd processed)
  /\ processLintResults (mkRunner [keepAll])
       [mkLintRes crasher (Some "panic occurred: boom") None;
        mkLintRes govet None (Some [issueAt "unreachable code" 7])] (emptyWorld [])
     = processed.
Proof.
  intros raw processed.
  pose proof (processLintResults_forwards_processed_records (mkRunner [keepAll])
                raw (emptyWorld [])) as H.
  fold processed in H. clearbody processed. destruct processed as [outCh w'].
  destruct H as (_ & _ & Hwarn & Hskip & _).
  split.
  - apply (Hwarn (mkLintRes crasher (Some "panic occurred: boom") None)
                 "panic occurred: boom"); [|reflexivity].
    apply list_elem_of_here.
  - apply (Hskip [mkLintRes crasher (Some "panic occurred: boom") None]
                 (mkLintRes quiet None None)
                 [mkLintRes govet None (Some [issueAt "unreachable code" 7])]);
      reflexivity.
Defined.

(** C3, as stated, fails: when the chain rejects every finding of a
    record, the record is still forwarded, with an empty finding set. *)
Lemma processLintResults_forwards_empty_record :
  let raw := [mkLintRes govet None (Some [issueAt "unreachable code" 7])] in
  let outCh := fst (processLintResults (mkRunner [dropAll]) raw (emptyWorld [])) in
  outCh = [mkLintRes govet None (Some [])]
  /\ exists res, res ∈ outCh /\ len (issues res) = 0.
Proof.
  split; [reflexivity|].
  exists (mkLintRes govet None (Some [])). split; [apply list_elem_of_here|reflexivity].
Qed.

(** ** The runner under an expired deadline *)

(** When [Run] sees the deadline expired, the counting loop receives every
    processed record, and the collector is handed the channel after that
    loop has emptied it: no finding is sent on the returned stream. *)
Lemma Run_deadline_output_empty {St} `{SW : timeutils.Stopwatch}
    (sortSlice : (linter.Config -> linter.Config -> bool) ->
                 list linter.Config -> list linter.Config)
    (Duration_String : time.Duration -> string)
    (r : Runner St) (ctx : context.Context) (linters : slice)
    (lintCtx : linter.Context) (now : nat -> time.Time) (w w1 : World St)
    (lintResultsCh : list lintRes) :
  context.ErrInRun ctx = true ->
  runWorkers sortSlice Duration_String ctx lintCtx linters now w = (Ok lintResultsCh, w1) ->
  let (processed, w2) := processLintResults r lintResultsCh w1 in
  Run sortSlice Duration_String r ctx linters lintCtx now w
  = (Ok [],
     mkWorld (log w2 ++ [(Error, deadlineMessage (length processed)
                                   (length (elems linters w2)))])
             (stages w2) (store w2) (calls w2) (heap w2)).
Proof.
  intros Hfired Hworkers. unfold Run, bind. rewrite Hworkers, Hfired.
  destruct (processLintResults r lintResultsCh w1) as [processed w2].
  rewrite rangeCount_spec. reflexivity.
Qed.

(** C2: with the deadline expired when [Run] checks it, the findings of the
    records completed so far should still reach the returned stream.  One
    analyzer, [govet], completes with one finding that the chain keeps.
    Without the deadline the finding is returned; with it, the record is
    counted ("1/1 linters finished"), the message is logged at error
    severity, and the returned stream is empty. *)
Theorem Run_deadline_discards_findings :
  let run ctx :=
    Run insertionSort nanoseconds (mkRunner [keepAll]) ctx 0
        (linter.mkContext 1 "root") (fun _ => 0%Z) (emptyWorld [[govet]]) in
  fst (run (context.mkCtx (Some 1) false)) = Ok [issueAt "unreachable code" 7]
  /\ fst (run (context.mkCtx (Some 1) true)) = Ok []
  /\ last (log (snd (run (context.mkCtx (Some 1) true))))
     = Some (Error, "1/1 linters finished: deadline exceeded: "
                    +:+ "try increase it by passing --deadline option")
  /\ fst (processLintResults (mkRunner [keepAll])
            [mkLintRes govet None (Some [issueAt "unreachable code" 7])]
            (emptyWorld [[govet]]))
     = [mkLintRes govet None (Some [issueAt "unreachable code" 7])].
Proof.
  repeat split; reflexivity.
Qed.

(** * Further properties of the runner *)

(** ** What a worker publishes *)

Lemma runLinterSafe_rawResult {St} lintCtx lc (w : World St) :
  runLinterSafe lintCtx lc w
  = ((issues (rawResult lintCtx lc), err (rawResult lintCtx lc)),
     mkWorld (log w ++ panicWarnings lintCtx [lc]) (stages w) (store w) (calls w) (heap w)).
Proof.
  unfold runLinterSafe, rawResult, panicWarnings. simpl.
  destruct (linter.Run _ _) as [found [e|]|panicData stack]; simpl;
    rewrite ?stampLoop_id, ?app_nil_r; destruct w; reflexivity.
Qed.

Lemma linter_rawResult lintCtx lc : linter_ (rawResult lintCtx lc) = lc.
Proof.
  unfold rawResult. destruct (linter.Run _ _) as [found [e|]|panicData stack]; reflexivity.
Qed.

Lemma rawResult_error_no_findings lintCtx lc :
  err (rawResult lintCtx lc) <> None -> issues (rawResult lintCtx lc) = None.
Proof.
  unfold rawResult. destruct (linter.Run _ _) as [found [e|]|panicData stack]; simpl;
    congruence.
Qed.

Lemma panicWarnings_cons lintCtx lc tasks :
  panicWarnings lintCtx (lc :: tasks)
  = panicWarnings lintCtx [lc] ++ panicWarnings lintCtx tasks.
Proof.
  unfold panicWarnings. simpl. now rewrite app_nil_r.
Qed.

Lemma ranTasks_nil doneAfter : ranTasks doneAfter [] = [].
Proof. destruct doneAfter; simpl; [apply take_nil|reflexivity]. Qed.

Lemma stagesOf_tracked {St} (name stage : string) l st s c h :
  stagesOf name (@mkWorld St l (st ++ [(name, stage)]) s c h)
  = stagesOf name (mkWorld l st s c h) ++ [stage].
Proof.
  unfold stagesOf. simpl. rewrite filter_app, map_app.
  rewrite filter_cons_True by reflexivity. reflexivity.
Qed.

Lemma runWorker_spec {St} `{SW : timeutils.Stopwatch} lintCtx name tasksCh :
  forall doneAfter (w : World St),
  let ran := ranTasks doneAfter tasksCh in
  runWorker doneAfter lintCtx tasksCh name w
  = (map (rawResult lintCtx) ran,
     mkWorld (log w ++ panicWarnings lintCtx ran
              ++ [(Info, timeutils.PrintText name
                           (stagesOf name w
                            ++ map (fun lc => linter.Name (linter.Linter lc)) ran))])
             (stages w ++ map (fun lc => (name, linter.Name (linter.Linter lc))) ran)
             (store w) (calls w) (heap w)).
Proof.
  assert (Hexit : forall w : World St,
    (do _ <- sw_Print name; ret []) w
    = (map (rawResult lintCtx) [],
       mkWorld (log w ++ panicWarnings lintCtx []
                ++ [(Info, timeutils.PrintText name
                             (stagesOf name w
                              ++ map (fun lc => linter.Name (linter.Linter lc)) []))])
               (stages w ++ map (fun lc => (name, linter.Name (linter.Linter lc))) [])
               (store w) (calls w) (heap w))).
  { intros w. unfold bind, sw_Print, Infof, logf, ret. simpl. now rewrite !app_nil_r. }
  induction tasksCh as [|lc tasksCh IH]; intros doneAfter w ran; subst ran.
  - destruct doneAfter as [k|]; simpl ranTasks; rewrite ?take_nil; apply Hexit.
  - assert (Hstep : forall da' : option nat,
      (do '(found, e) <-
         TrackStage name (linter.Name (linter.Linter lc)) (runLinterSafe lintCtx lc);
       do rest <- runWorker da' lintCtx tasksCh name;
       ret (mkLintRes lc e found :: rest)) w
      = (map (rawResult lintCtx) (lc :: ranTasks da' tasksCh),
         mkWorld (log w ++ panicWarnings lintCtx (lc :: ranTasks da' tasksCh)
                  ++ [(Info, timeutils.PrintText name
                               (stagesOf name w
                                ++ map (fun lc => linter.Name (linter.Linter lc))
                                       (lc :: ranTasks da' tasksCh)))])
                 (stages w ++ map (fun lc => (name, linter.Name (linter.Linter lc)))
                                  (lc :: ranTasks da' tasksCh))
                 (store w) (calls w) (heap w))).
    { intros da'. unfold bind, TrackStage. rewrite runLinterSafe_rawResult.
      cbv beta iota. rewrite IH. unfold ret. cbn [log stages store calls heap map].
      rewrite stagesOf_tracked.
      replace (stagesOf name (mkWorld (log w) (stages w) (store w) (calls w) (heap w)))
        with (stagesOf name w) by (destruct w; reflexivity).
      f_equal.
      - f_equal. pose proof (linter_rawResult lintCtx lc) as Hl.
        destruct (rawResult lintCtx lc) as [lc' e found]. simpl in Hl. now subst lc'.
      - f_equal.
        + rewrite (panicWarnings_cons lintCtx lc (ranTasks da' tasksCh)).
          now rewrite <- !app_assoc.
        + now rewrite <- app_assoc. }
    destruct doneAfter as [[|k]|].
    + apply Hexit.
    + exact (Hstep (Some k)).
    + exact (Hstep None).
Qed.

(** X1: a worker publishes exactly one record per task it starts, in queue
    order, and none for a task it dequeues after it has seen the
    cancellation signal; each record is the analyzer's outcome for that task. *)
Theorem runWorker_publishes_started_tasks {St} `{SW : timeutils.Stopwatch}
    (doneAfter : option nat) (lintCtx : linter.Context)
    (tasksCh : list linter.Config) (name : string) (w : World St) :
  let out := fst (runWorker doneAfter lintCtx tasksCh name w) in
  out = map (rawResult lintCtx) (ranTasks doneAfter tasksCh)
  /\ map linter_ out `prefix_of` tasksCh
  /\ length out = match doneAfter with
                  | None => length tasksCh
                  | Some k => Nat.min k (length tasksCh)
                  end.
Proof.
  intros out. subst out. rewrite runWorker_spec. simpl.
  split; [reflexivity|].
  assert (Hmap : forall l, map linter_ (map (rawResult lintCtx) l) = l).
  { induction l as [|lc l IH]; simpl; [reflexivity|].
    now rewrite linter_rawResult, IH. }
  rewrite Hmap, length_map. destruct doneAfter as [k|]; simpl.
  - split; [apply prefix_take|apply length_take].
  - split; reflexivity.
Qed.

(** X2: a record published with an error carries no findings, also when
    the analyzer returned findings together with its error. *)
Theorem runWorker_error_records_carry_no_findings {St} `{SW : timeutils.Stopwatch}
    (doneAfter : option nat) (lintCtx : linter.Context)
    (tasksCh : list linter.Config) (name : string) (w : World St) :
  Forall (fun res => err res <> None -> issues res = None)
         (fst (runWorker doneAfter lintCtx tasksCh name w)).
Proof.
  rewrite runWorker_spec. simpl. apply Forall_forall. intros res Hin.
  apply list_elem_of_fmap in Hin as (lc & -> & _).
  apply rawResult_error_no_findings.
Qed.


(** ** The worker pool and the runner as a whole *)

Lemma quietStep_refl {St} (w : World St) : quietStep w w.
Proof. exists []. split; [now rewrite app_nil_r|constructor]. Qed.

Lemma quietStep_trans {St} (w1 w2 w3 : World St) :
  quietStep w1 w2 -> quietStep w2 w3 -> quietStep w1 w3.
Proof.
  intros (a1 & H1 & Hq1) (a2 & H2 & Hq2). exists (a1 ++ a2). split.
  - now rewrite H2, H1, app_assoc.
  - now apply Forall_app.
Qed.

Lemma quietStep_log {St} (w : World St) added st s c h :
  noErrorLine added -> quietStep w (mkWorld (log w ++ added) st s c h).
Proof. intros Hq. exists added. split; [reflexivity|exact Hq]. Qed.

Lemma errorLines_quiet added : noErrorLine added -> errorLines added = [].
Proof.
  unfold noErrorLine, errorLines. induction 1 as [|[lvl msg] l Hx _ IH]; [reflexivity|].
  rewrite filter_cons_False; [exact IH|].
  unfold isErrorLine. simpl in *. destruct lvl; congruence.
Qed.

Lemma noErrorLine_panicWarnings lintCtx tasks : noErrorLine (panicWarnings lintCtx tasks).
Proof.
  unfold noErrorLine, panicWarnings. induction tasks as [|lc tasks IH]; simpl.
  - constructor.
  - apply Forall_app. split; [|exact IH].
    destruct (linter.Run _ _); repeat constructor. discriminate.
Qed.

Lemma logWorkersStat_nonempty {St} Duration_String times (w : World St) :
  times <> [] ->
  exists line,
    logWorkersStat Duration_String times w
    = (Ok tt, mkWorld (log w ++ [(Info, line)]) (stages w) (store w) (calls w) (heap w)).
Proof.
  intros Hne. destruct times as [|t0 rest]; [congruence|]. eexists.
  unfold logWorkersStat. change ((t0 :: rest) !! 0) with (Some t0).
  cbv beta iota zeta. reflexivity.
Qed.

Lemma logWorkersStat_heap {St} Duration_String times (w : World St) :
  heap (snd (logWorkersStat Duration_String times w)) = heap w.
Proof.
  destruct times as [|t0 rest]; reflexivity.
Qed.

Lemma finishTimes_nonempty c now : (1 <= c)%Z -> finishTimes (Z.to_nat c) now <> [].
Proof.
  intros Hc Hnil. apply (f_equal length) in Hnil.
  rewrite length_finishTimes in Hnil. simpl in Hnil. lia.
Qed.

Lemma runWorker_nil {St} `{SW : timeutils.Stopwatch} doneAfter lintCtx name (w : World St) :
  runWorker doneAfter lintCtx [] name w
  = ([], mkWorld (log w ++ [(Info, timeutils.PrintText name (stagesOf name w))])
                 (stages w) (store w) (calls w) (heap w)).
Proof. reflexivity. Qed.

(** The workers that find the queue closed only write their reports. *)
Lemma idleWorkers_spec {St} `{SW : timeutils.Stopwatch} doneAfter lintCtx (ks : list nat) :
  forall w : World St,
  exists added,
    forEach ks (fun i =>
      do _ <- runWorker doneAfter lintCtx [] ("worker." +:+ pretty i); ret tt) w
    = (tt, mkWorld (log w ++ added) (stages w) (store w) (calls w) (heap w))
    /\ noErrorLine added.
Proof.
  induction ks as [|k ks IH]; intros w.
  - exists []. simpl. unfold ret. rewrite app_nil_r. split; [destruct w; reflexivity|constructor].
  - cbn [forEach]. unfold bind at 1 2. rewrite runWorker_nil. unfold ret at 1.
    match goal with |- context [forEach ks _ ?w1] => destruct (IH w1) as (added & Heq & Hq) end.
    eexists. rewrite Heq. cbn [log stages store calls heap]. rewrite <- app_assoc.
    split; [reflexivity|].
    apply Forall_app. split; [|exact Hq]. repeat constructor. discriminate.
Qed.

Lemma runWorkers_spec {St} `{SW : timeutils.Stopwatch} sortSlice Duration_String ctx c
    logger linters l now (w : World St) :
  (1 <= c)%Z ->
  heap w !! linters = Some l ->
  let lintCtx := linter.mkContext c logger in
  let sorted := sortSlice lessSpeed l in
  let ran := ranTasks (context.doneAfter ctx) sorted in
  exists w1,
    runWorkers sortSlice Duration_String ctx lintCtx linters now w
    = (Ok (map (rawResult lintCtx) ran), w1)
    /\ store w1 = store w
    /\ calls w1 = calls w
    /\ heap w1 = heap w ++ [sorted]
    /\ quietStep w w1.
Proof.
  intros Hc Hl lintCtx sorted ran. subst lintCtx.
  unfold runWorkers. cbn [linter.Concurrency].
  destruct (c <? 0)%Z eqn:Hneg; [apply Z.ltb_lt in Hneg; lia|].
  destruct (c =? 0)%Z eqn:Hzero; [apply Z.eqb_eq in Hzero; lia|].
  match goal with |- context [forEach ?ks ?f] =>
    pose proof (idleWorkers_spec (St:=St) (context.doneAfter ctx)
                  (linter.mkContext c logger) ks) as Hidle;
    set (idle := forEach ks f) in * end.
  unfold bind. rewrite (dispatch_spec _ _ _ _ Hl). rewrite runWorker_spec.
  fold sorted. fold ran.
  match goal with |- context [idle ?w1] => destruct (Hidle w1) as (added & Heq & Hq) end.
  rewrite Heq.
  match goal with |- context [logWorkersStat ?d ?t ?w2] =>
    destruct (logWorkersStat_nonempty d t w2 (finishTimes_nonempty c now Hc))
      as (line & Hstat) end.
  rewrite Hstat. unfold ret. eexists. split; [reflexivity|].
  cbn [log stages store calls heap setHeap].
  split; [reflexivity|]. split; [reflexivity|]. split; [reflexivity|].
  eexists. split.
  - rewrite <- !app_assoc. reflexivity.
  - unfold noErrorLine. rewrite !Forall_app.
    split; [apply noErrorLine_panicWarnings|].
    split; [repeat constructor; discriminate|].
    split; [exact Hq|]. repeat constructor. discriminate.
Qed.

Lemma processStep_frame {St} sw found (p : processors.Processor St) (w : World St) :
  heap (snd (processStep sw found p w)) = heap w
  /\ quietStep w (snd (processStep sw found p w)).
Proof.
  pose proof (processStep_spec sw found p w) as H.
  destruct (processors.Process p found (store w)) as [[newIssues e] s'].
  rewrite H. simpl. split; [reflexivity|]. apply quietStep_log.
  destruct e; repeat constructor. discriminate.
Qed.

Lemma processIssues_frame {St} (r : Runner St) sw found (w : World St) :
  heap (snd (processIssues r found sw w)) = heap w
  /\ quietStep w (snd (processIssues r found sw w)).
Proof.
  unfold processIssues. generalize (Processors r) as ps. intros ps. revert found w.
  induction ps as [|p ps IH]; intros found w; simpl.
  - split; [reflexivity|apply quietStep_refl].
  - unfold bind. destruct (processStep_frame sw found p w) as [Hh Hq].
    destruct (processStep sw found p w) as [found' w1]. simpl in Hh, Hq.
    destruct (IH found' w1) as [Hh' Hq']. split.
    + now rewrite Hh'.
    + eapply quietStep_trans; eassumption.
Qed.

Lemma processLoop_frame {St} (r : Runner St) sw inCh : forall outCh (w : World St),
  heap (snd (processLoop r sw inCh outCh w)) = heap w
  /\ quietStep w (snd (processLoop r sw inCh outCh w)).
Proof.
  induction inCh as [|res inCh IH]; intros outCh w; simpl.
  - split; [reflexivity|apply quietStep_refl].
  - destruct (err res) as [e|].
    + unfold bind, Warnf, logf. simpl.
      match goal with |- context [processLoop r sw inCh outCh ?w1] =>
        destruct (IH outCh w1) as [Hh Hq] end.
      simpl in Hh. split; [exact Hh|].
      eapply quietStep_trans; [|exact Hq]. apply quietStep_log.
      repeat constructor. discriminate.
    + destruct (len (issues res) =? 0); simpl; [apply IH|].
      unfold bind. destruct (processIssues_frame r sw (issues res) w) as [Hh Hq].
      destruct (processIssues r (issues res) sw w) as [found' w1]. simpl in Hh, Hq.
      match goal with |- context [processLoop r sw inCh ?o w1] =>
        destruct (IH o w1) as [Hh' Hq'] end.
      split; [now rewrite Hh'|]. eapply quietStep_trans; eassumption.
Qed.

Lemma processLintResults_frame {St} `{SW : timeutils.Stopwatch} (r : Runner St) inCh
    (w : World St) :
  heap (snd (processLintResults r inCh w)) = heap w
  /\ quietStep w (snd (processLintResults r inCh w)).
Proof.
  unfold processLintResults, bind.
  destruct (processLoop_frame r "processing" inCh [] w) as [Hh Hq].
  destruct (processLoop r "processing" inCh [] w) as [outCh w1]. simpl in Hh, Hq.
  rewrite finishAll_spec. simpl. split; [exact Hh|].
  eapply quietStep_trans; [exact Hq|]. apply quietStep_log.
  repeat constructor. discriminate.
Qed.

Lemma processLintResults_fst {St} `{SW : timeutils.Stopwatch} (r : Runner St) inCh
    (w : World St) :
  fst (processLintResults r inCh w) = fst (processLoop r "processing" inCh [] w).
Proof.
  unfold processLintResults, bind.
  destruct (processLoop r "processing" inCh [] w) as [outCh w1].
  rewrite finishAll_spec. reflexivity.
Qed.

(** The forwarded records depend on the world through the processors'
    state alone. *)
Lemma processStep_store {St} sw found (p : processors.Processor St) (w w' : World St) :
  store w = store w' ->
  fst (processStep sw found p w) = fst (processStep sw found p w')
  /\ store (snd (processStep sw found p w)) = store (snd (processStep sw found p w')).
Proof.
  intros Hs. pose proof (processStep_spec sw found p w) as H1.
  pose proof (processStep_spec sw found p w') as H2. rewrite <- Hs in H2.
  destruct (processors.Process p found (store w)) as [[newIssues e] s'].
  rewrite H1, H2. split; reflexivity.
Qed.

Lemma processIssues_store {St} (r : Runner St) sw found (w w' : World St) :
  store w = store w' ->
  fst (processIssues r found sw w) = fst (processIssues r found sw w')
  /\ store (snd (processIssues r found sw w)) = store (snd (processIssues r found sw w')).
Proof.
  unfold processIssues. generalize (Processors r) as ps. intros ps. revert found w w'.
  induction ps as [|p ps IH]; intros found w w' Hs; simpl.
  - split; [reflexivity|exact Hs].
  - unfold bind. destruct (processStep_store sw found p w w' Hs) as [Hf Hs'].
    destruct (processStep sw found p w) as [f1 w1].
    destruct (processStep sw found p w') as [f1' w1']. simpl in Hf, Hs'. subst f1'.
    apply IH, Hs'.
Qed.

Lemma processLoop_store {St} (r : Runner St) sw inCh :
  forall outCh (w w' : World St),
  store w = store w' ->
  fst (processLoop r sw inCh outCh w) = fst (processLoop r sw inCh outCh w')
  /\ store (snd (processLoop r sw inCh outCh w))
     = store (snd (processLoop r sw inCh outCh w')).
Proof.
  induction inCh as [|res inCh IH]; intros outCh w w' Hs; simpl.
  - split; [reflexivity|exact Hs].
  - destruct (err res) as [e|].
    + unfold bind, Warnf, logf. simpl. apply IH. exact Hs.
    + destruct (len (issues res) =? 0); simpl; [apply IH, Hs|].
      unfold bind. destruct (processIssues_store r sw (issues res) w w' Hs) as [Hf Hs'].
      destruct (processIssues r (issues res) sw w) as [f1 w1].
      destruct (processIssues r (issues res) sw w') as [f1' w1']. simpl in Hf, Hs'.
      subst f1'. apply IH, Hs'.
Qed.

Lemma processLintResults_store {St} `{SW : timeutils.Stopwatch} (r : Runner St) inCh
    (w w' : World St) :
  store w = store w' ->
  fst (processLintResults r inCh w) = fst (processLintResults r inCh w').
Proof.
  intros Hs. rewrite !processLintResults_fst.
  apply (processLoop_store r "processing" inCh [] w w' Hs).
Qed.

Lemma processLintResults_nil {St} `{SW : timeutils.Stopwatch} (r : Runner St)
    (w : World St) :
  exists line,
    processLintResults r [] w
    = ([], mkWorld (log w ++ [(Info, line)])
                   (stages w ++ map (fun p => ("processing", processors.Name p))
                                    (Processors r))
                   (fold_left (fun s p => processors.Finish p s) (Processors r) (store w))
                   (calls w ++ finishCalls r) (heap w)).
Proof.
  eexists. unfold processLintResults, bind. cbn [processLoop]. unfold ret at 1.
  rewrite finishAll_spec. reflexivity.
Qed.

Lemma forwarded_tasks lintCtx tasks :
  map linter_ (filter (fun res => forwarded res = true) (map (rawResult lintCtx) tasks))
  = filter (fun lc => yieldsRecord lintCtx lc = true) tasks.
Proof.
  induction tasks as [|lc tasks IH]; simpl; [reflexivity|].
  rewrite !filter_cons. change (forwarded (rawResult lintCtx lc)) with (yieldsRecord lintCtx lc).
  destruct (decide (yieldsRecord lintCtx lc = true)); simpl; rewrite IH;
    [rewrite linter_rawResult|]; reflexivity.
Qed.

(** The records the pipeline forwards for the raw results of [tasks]. *)
Lemma processed_records {St} `{SW : timeutils.Stopwatch} (r : Runner St) lintCtx tasks
    (w : World St) :
  let processed := fst (processLintResults r (map (rawResult lintCtx) tasks) w) in
  map linter_ processed = filter (fun lc => yieldsRecord lintCtx lc = true) tasks
  /\ Forall (fun res => err res = None /\ issues res <> None) processed.
Proof.
  intros processed. subst processed. rewrite processLintResults_fst.
  destruct (processLoop_forwards r "processing" (map (rawResult lintCtx) tasks) [] w)
    as (new & Hout & Hmap & Hall).
  rewrite Hout. simpl. rewrite <- forwarded_tasks. split; assumption.
Qed.

(** The whole run, for a valid slice of tasks and at least one worker: the
    pipeline runs on the raw results of the started tasks, in a world [w1]
    that differs from the initial one by the sorted copy in the heap and by
    lines below error severity in the log. *)
Lemma Run_spec {St} `{SW : timeutils.Stopwatch} sortSlice Duration_String (r : Runner St)
    ctx c logger linters l now (w : World St) :
  (1 <= c)%Z ->
  heap w !! linters = Some l ->
  let lintCtx := linter.mkContext c logger in
  let sorted := sortSlice lessSpeed l in
  let ran := ranTasks (context.doneAfter ctx) sorted in
  exists w1,
    store w1 = store w /\ calls w1 = calls w /\ quietStep w w1
    /\ Run sortSlice Duration_String r ctx linters lintCtx now w
       = let processed := fst (processLintResults r (map (rawResult lintCtx) ran) w1) in
         let w2 := snd (processLintResults r (map (rawResult lintCtx) ran) w1) in
         if context.ErrInRun ctx
         then (Ok [],
               mkWorld (log w2 ++ [(Error, deadlineMessage (length processed) (length l))])
                       (stages w2) (store w2) (calls w2) (heap w2))
         else (Ok (collectIssues processed), w2).
Proof.
  intros Hc Hl lintCtx sorted ran.
  destruct (runWorkers_spec sortSlice Duration_String ctx c logger linters l now w Hc Hl)
    as (w1 & Hrun & Hstore & Hcalls & Hheap & Hquiet).
  exists w1. split; [exact Hstore|]. split; [exact Hcalls|]. split; [exact Hquiet|].
  unfold Run, bind. fold lintCtx in Hrun |- *. rewrite Hrun. fold sorted ran in Hrun |- *.
  pose proof (processLintResults_frame r (map (rawResult lintCtx) ran) w1) as [Hp _].
  destruct (processLintResults r (map (rawResult lintCtx) ran) w1) as [processed w2].
  cbv zeta. simpl in Hp |- *.
  destruct (context.ErrInRun ctx); [|reflexivity].
  rewrite rangeCount_spec. unfold deref, ret, Errorf, logf, elems. simpl.
  rewrite Hp, Hheap.
  assert (H1 : forall x : list linter.Config, (heap w ++ [x]) !! linters = Some l).
  { intros x. rewrite lookup_app_l; [exact Hl|]. eapply lookup_lt_Some. exact Hl. }
  rewrite H1. reflexivity.
Qed.

(** X4: with a single worker and no cancellation the pool publishes one raw
    result per task, in ascending order of expected speed. *)
Theorem runWorkers_single_worker_in_speed_order {St} `{SW : timeutils.Stopwatch}
    (sortSlice : (linter.Config -> linter.Config -> bool) ->
                 list linter.Config -> list linter.Config)
    (Duration_String : time.Duration -> string)
    (fired : bool) (logger : string) (linters : slice) (l : list linter.Config)
    (now : nat -> time.Time) (w : World St) :
  sortContract sortSlice ->
  heap w !! linters = Some l ->
  let lintCtx := linter.mkContext 1 logger in
  exists tasks,
    fst (runWorkers sortSlice Duration_String (context.mkCtx None fired) lintCtx linters now w)
    = Ok (map (rawResult lintCtx) tasks)
    /\ Permutation l tasks
    /\ forall i j a b, i < j -> tasks !! i = Some a -> tasks !! j = Some b ->
         (linter.GetSpeed a <= linter.GetSpeed b)%Z.
Proof.
  intros Hsort Hl lintCtx. exists (sortSlice lessSpeed l).
  destruct (runWorkers_spec sortSlice Duration_String (context.mkCtx None fired) 1 logger
              linters l now w ltac:(lia) Hl) as (w1 & Hrun & _).
  fold lintCtx in Hrun. rewrite Hrun. simpl.
  destruct (Hsort lessSpeed lessSpeed_StrictWeakOrder l) as [Hperm Hsorted].
  split; [reflexivity|]. split; [exact Hperm|]. apply Sorted_lookup_le, Hsorted.
Qed.

Lemma runWorkers_single_worker_in_speed_order_witness :
  fst (runWorkers insertionSort nanoseconds (context.mkCtx None false)
         (linter.mkContext 1 "root") 0 (fun _ => 0%Z) (emptyWorld [[crasher; govet; quiet]]))
  = Ok (map (rawResult (linter.mkContext 1 "root")) [quiet; govet; crasher]).
Proof.
  destruct (runWorkers_single_worker_in_speed_order insertionSort nanoseconds false "root"
              0 [crasher; govet; quiet] (fun _ => 0%Z) (emptyWorld [[crasher; govet; quiet]])
              insertionSort_contract eq_refl) as (tasks & Hrun & _).
  reflexivity.
Defined.

Lemma errorLines_app a b : errorLines (a ++ b) = errorLines a ++ errorLines b.
Proof. apply filter_app. Qed.

(** The lines at error severity that a run adds to the log, given what the
    pipeline leaves and what [Run] writes after it. *)
Lemma quietStep_errorLines {St} (w w2 : World St) last :
  quietStep w w2 ->
  exists added,
    log w2 ++ last = log w ++ added /\ errorLines added = errorLines last.
Proof.
  intros (a & Ha & Hq). exists (a ++ last). split.
  - now rewrite Ha, app_assoc.
  - now rewrite errorLines_app, (errorLines_quiet a Hq).
Qed.

(** X5: when the workers see the cancellation signal before they start any
    task, no raw result is published and [Process] is never called; the
    processors are still finished, the returned stream is empty, and the
    only line at error severity the run can add is the report that 0 of
    the linters finished, which it adds exactly when [Run] sees the
    deadline too. *)
Theorem Run_cancelled_before_start {St} `{SW : timeutils.Stopwatch}
    (sortSlice : (linter.Config -> linter.Config -> bool) ->
                 list linter.Config -> list linter.Config)
    (Duration_String : time.Duration -> string)
    (r : Runner St) (fired : bool) (c : Z) (logger : string)
    (linters : slice) (l : list linter.Config) (now : nat -> time.Time) (w : World St) :
  (1 <= c)%Z ->
  heap w !! linters = Some l ->
  let ctx := context.mkCtx (Some 0) fired in
  let lintCtx := linter.mkContext c logger in
  let out := Run sortSlice Duration_String r ctx linters lintCtx now w in
  fst (runWorkers sortSlice Duration_String ctx lintCtx linters now w) = Ok []
  /\ fst out = Ok []
  /\ calls (snd out) = calls w ++ finishCalls r
  /\ store (snd out)
     = fold_left (fun s p => processors.Finish p s) (Processors r) (store w)
  /\ exists added,
       log (snd out) = log w ++ added
       /\ errorLines added
          = if fired then [(Error, deadlineMessage 0 (length l))] else [].
Proof.
  intros Hc Hl ctx lintCtx out. subst out.
  destruct (runWorkers_spec sortSlice Duration_String ctx c logger linters l now w Hc Hl)
    as (w0 & Hrun & _).
  split; [fold lintCtx in Hrun; now rewrite Hrun|]. clear w0 Hrun.
  destruct (Run_spec sortSlice Duration_String r ctx c logger linters l now w Hc Hl)
    as (w1 & Hstore & Hcalls & Hquiet & Hrun).
  fold lintCtx in Hrun. rewrite Hrun. clear Hrun.
  cbn [context.doneAfter context.ErrInRun ctx ranTasks]. rewrite take_0. cbn [map].
  destruct (processLintResults_nil r w1) as (line & Hnil). rewrite Hnil.
  cbv zeta. cbn [fst snd length].
  assert (Hq2 : quietStep w (mkWorld (log w1 ++ [(Info, line)])
                  (stages w1 ++ map (fun p => ("processing", processors.Name p))
                                    (Processors r))
                  (fold_left (fun s p => processors.Finish p s) (Processors r) (store w1))
                  (calls w1 ++ finishCalls r) (heap w1))).
  { eapply quietStep_trans; [exact Hquiet|]. apply quietStep_log.
    repeat constructor. discriminate. }
  destruct fired; cbn [fst snd log store calls].
  - split; [reflexivity|]. rewrite Hcalls, Hstore. split; [reflexivity|].
    split; [reflexivity|].
    destruct (quietStep_errorLines _ _ [(Error, deadlineMessage 0 (length l))] Hq2)
      as (added & Hlog & Herr).
    exists added. split; [exact Hlog|]. rewrite Herr. reflexivity.
  - split; [reflexivity|]. rewrite Hcalls, Hstore. split; [reflexivity|].
    split; [reflexivity|].
    destruct Hq2 as (added & Hlog & Hq). exists added. split; [exact Hlog|].
    now apply errorLines_quiet.
Qed.

Lemma Run_cancelled_before_start_witness :
  let out := Run insertionSort nanoseconds (mkRunner [keepAll]) (context.mkCtx (Some 0) true)
                 0 (linter.mkContext 2 "root") (fun _ => 0%Z)
                 (emptyWorld [[crasher; govet; quiet]]) in
  fst out = Ok []
  /\ calls (snd out) = [CallFinish "keep_all"]
  /\ errorLines (log (snd out))
     = [(Error, "0/3 linters finished: deadline exceeded: "
                +:+ "try increase it by passing --deadline option")].
Proof.
  destruct (Run_cancelled_before_start insertionSort nanoseconds (mkRunner [keepAll]) true
              2 "root" 0 [crasher; govet; quiet] (fun _ => 0%Z)
              (emptyWorld [[crasher; govet; quiet]]) ltac:(lia) eq_refl)
    as (_ & Hout & Hcalls & _ & added & Hlog & Herr).
  split; [exact Hout|]. split; [exact Hcalls|]. rewrite Hlog. exact Herr.
Defined.

(** X6: the runner writes a line at error severity exactly when it sees the
    deadline expired: the analyzers' panics and errors and the processors'
    failures are logged below that severity. *)
Theorem Run_error_line_iff_deadline {St} `{SW : timeutils.Stopwatch}
    (sortSlice : (linter.Config -> linter.Config -> bool) ->
                 list linter.Config -> list linter.Config)
    (Duration_String : time.Duration -> string)
    (r : Runner St) (ctx : context.Context) (c : Z) (logger : string)
    (linters : slice) (l : list linter.Config) (now : nat -> time.Time) (w : World St) :
  (1 <= c)%Z ->
  heap w !! linters = Some l ->
  noErrorLine (log w) ->
  (exists msg, (Error, msg) ∈ log (snd (Run sortSlice Duration_String r ctx linters
                                        (linter.mkContext c logger) now w)))
  <-> context.ErrInRun ctx = true.
Proof.
  intros Hc Hl Hlog.
  destruct (Run_spec sortSlice Duration_String r ctx c logger linters l now w Hc Hl)
    as (w1 & _ & _ & Hquiet & Hrun).
  cbv zeta in Hrun. rewrite Hrun. clear Hrun.
  set (ran := ranTasks (context.doneAfter ctx) (sortSlice lessSpeed l)).
  pose proof (processLintResults_frame r (map (rawResult (linter.mkContext c logger)) ran) w1)
    as [_ Hq2].
  destruct (quietStep_trans _ _ _ Hquiet Hq2) as (added & Hadded & Hq).
  assert (Hw2 : noErrorLine (log (snd (processLintResults r
                  (map (rawResult (linter.mkContext c logger)) ran) w1)))).
  { rewrite Hadded. now apply Forall_app. }
  destruct (context.ErrInRun ctx); simpl.
  - split; [reflexivity|]. intros _. eexists. apply elem_of_app. right.
    apply list_elem_of_here.
  - split; [|discriminate]. intros [msg Hin].
    unfold noErrorLine in Hw2. rewrite Forall_forall in Hw2.
    exfalso. apply (Hw2 _ Hin). reflexivity.
Qed.

Lemma Run_error_line_iff_deadline_witness :
  (exists msg, (Error, msg) ∈ log (snd (Run insertionSort nanoseconds
                                        (mkRunner [keepAll; failing])
                                        (context.mkCtx None false) 0
                                        (linter.mkContext 1 "root") (fun _ => 0%Z)
                                        (emptyWorld [[crasher; govet; quiet]]))))
  <-> false = true.
Proof.
  apply (Run_error_line_iff_deadline insertionSort nanoseconds (mkRunner [keepAll; failing])
           (context.mkCtx None false) 1 "root" 0 [crasher; govet; quiet] (fun _ => 0%Z)
           (emptyWorld [[crasher; govet; quiet]])).
  - lia.
  - reflexivity.
  - constructor.
Defined.

(** X7: with a single worker, a run that sees the deadline expired adds
    exactly one line at error severity to the log, the report, and the
    count in it is the number of processed records: a task counts as
    finished only if it was started and its analyzer returned no error and
    at least one finding; the total is the number of tasks given to [Run]. *)
Theorem Run_deadline_counts_forwarded_records {St} `{SW : timeutils.Stopwatch}
    (sortSlice : (linter.Config -> linter.Config -> bool) ->
                 list linter.Config -> list linter.Config)
    (Duration_String : time.Duration -> string)
    (r : Runner St) (doneAfter : option nat) (logger : string)
    (linters : slice) (l : list linter.Config) (now : nat -> time.Time) (w : World St) :
  heap w !! linters = Some l ->
  let lintCtx := linter.mkContext 1 logger in
  let ran := ranTasks doneAfter (sortSlice lessSpeed l) in
  exists added,
    log (snd (Run sortSlice Duration_String r (context.mkCtx doneAfter true) linters
                  lintCtx now w))
    = log w ++ added
    /\ errorLines added
       = [(Error,
           deadlineMessage (length (filter (fun lc => yieldsRecord lintCtx lc = true) ran))
                           (length l))].
Proof.
  intros Hl lintCtx ran.
  destruct (Run_spec sortSlice Duration_String r (context.mkCtx doneAfter true) 1 logger
              linters l now w ltac:(lia) Hl) as (w1 & _ & _ & Hquiet & Hrun).
  fold lintCtx in Hrun. cbv zeta in Hrun.
  cbn [context.doneAfter context.ErrInRun] in Hrun. fold ran in Hrun. rewrite Hrun.
  clear Hrun. cbn [snd log].
  pose proof (processLintResults_frame r (map (rawResult lintCtx) ran) w1) as [_ Hq2].
  destruct (processed_records r lintCtx ran w1) as [Htasks _].
  apply (f_equal length) in Htasks. rewrite length_map in Htasks. rewrite Htasks.
  destruct (quietStep_errorLines _ _
              [(Error, deadlineMessage
                         (length (filter (fun lc => yieldsRecord lintCtx lc = true) ran))
                         (length l))]
              (quietStep_trans _ _ _ Hquiet Hq2)) as (added & Hlog & Herr).
  exists added. split; [exact Hlog|]. rewrite Herr. reflexivity.
Qed.

Lemma Run_deadline_counts_forwarded_records_witness :
  errorLines (log (snd (Run insertionSort nanoseconds (mkRunner [keepAll])
                            (context.mkCtx None true) 0 (linter.mkContext 1 "root")
                            (fun _ => 0%Z) (emptyWorld [[crasher; govet; quiet]]))))
  = [(Error, "1/3 linters finished: deadline exceeded: "
             +:+ "try increase it by passing --deadline option")].
Proof.
  destruct (Run_deadline_counts_forwarded_records insertionSort nanoseconds
              (mkRunner [keepAll]) None "root" 0 [crasher; govet; quiet] (fun _ => 0%Z)
              (emptyWorld [[crasher; govet; quiet]]) eq_refl) as (added & Hlog & Herr).
  rewrite Hlog. exact Herr.
Defined.

(** X8: with a single worker, when [Run] does not see the deadline expired
    the returned stream is the concatenation, in order, of the findings of
    the records the pipeline forwards for the raw results of the started
    tasks, taken in queue order from the processors' initial state; there
    is one such record for each started task whose analyzer returned no
    error and at least one finding, so an analyzer that panics or fails
    contributes nothing to the stream. *)
Theorem Run_returns_findings_of_successful_analyzers {St} `{SW : timeutils.Stopwatch}
    (sortSlice : (linter.Config -> linter.Config -> bool) ->
                 list linter.Config -> list linter.Config)
    (Duration_String : time.Duration -> string)
    (r : Runner St) (doneAfter : option nat) (logger : string)
    (linters : slice) (l : list linter.Config) (now : nat -> time.Time) (w : World St) :
  heap w !! linters = Some l ->
  let lintCtx := linter.mkContext 1 logger in
  let ran := ranTasks doneAfter (sortSlice lessSpeed l) in
  let processed := fst (processLintResults r (map (rawResult lintCtx) ran) w) in
  fst (Run sortSlice Duration_String r (context.mkCtx doneAfter false) linters
           lintCtx now w)
  = Ok (mjoin (map (fun res => default [] (issues res)) processed))
  /\ map linter_ processed = filter (fun lc => yieldsRecord lintCtx lc = true) ran
  /\ Forall (fun res => err res = None /\ issues res <> None) processed.
Proof.
  intros Hl lintCtx ran processed.
  destruct (Run_spec sortSlice Duration_String r (context.mkCtx doneAfter false) 1 logger
              linters l now w ltac:(lia) Hl) as (w1 & Hstore & _ & _ & Hrun).
  fold lintCtx in Hrun. cbv zeta in Hrun.
  cbn [context.doneAfter context.ErrInRun] in Hrun. fold ran in Hrun. rewrite Hrun.
  clear Hrun. cbn [fst].
  rewrite (processLintResults_store r (map (rawResult lintCtx) ran) w1 w Hstore).
  fold processed. split.
  - unfold collectIssues. now rewrite collectLoop_spec.
  - apply processed_records.
Qed.

Lemma Run_returns_findings_of_successful_analyzers_witness :
  fst (Run insertionSort nanoseconds (mkRunner [keepAll]) (context.mkCtx None false) 0
           (linter.mkContext 1 "root") (fun _ => 0%Z)
           (emptyWorld [[crasher; govet; quiet]]))
  = Ok [issueAt "unreachable code" 7].
Proof.
  destruct (Run_returns_findings_of_successful_analyzers insertionSort nanoseconds
              (mkRunner [keepAll]) None "root" 0 [crasher; govet; quiet] (fun _ => 0%Z)
              (emptyWorld [[crasher; govet; quiet]]) eq_refl) as (Hout & _).
  rewrite Hout. reflexivity.
Defined.

Lemma runWorkers_heap {St} `{SW : timeutils.Stopwatch} sortSlice Duration_String ctx lintCtx
    linters l now (w : World St) :
  heap w !! linters = Some l ->
  heap (snd (runWorkers sortSlice Duration_String ctx lintCtx linters now w))
  = if (linter.Concurrency lintCtx <? 0)%Z then heap w
    else heap w ++ [sortSlice lessSpeed l].
Proof.
  intros Hl. unfold runWorkers.
  destruct (linter.Concurrency lintCtx <? 0)%Z; [reflexivity|].
  match goal with |- context [forEach ?ks ?f] =>
    pose proof (idleWorkers_spec (St:=St) (context.doneAfter ctx) lintCtx ks) as Hidle;
    set (idle := forEach ks f) in * end.
  unfold bind. rewrite (dispatch_spec _ _ _ _ Hl).
  destruct (linter.Concurrency lintCtx =? 0)%Z; rewrite ?runWorker_spec; unfold ret at 1;
    match goal with |- context [idle ?w1] =>
      destruct (Hidle w1) as (added & Heq & _); rewrite Heq end;
    match goal with |- context [logWorkersStat ?d ?t ?w2] =>
      pose proof (logWorkersStat_heap d t w2) as Hs;
      destruct (logWorkersStat d t w2) as [[u|msg] w3]
    end; simpl in Hs |- *; now rewrite Hs.
Qed.

(** X9: the only thing [Run] does to the heap is to allocate the array of
    the sorted copy of the tasks: whatever the outcome, the heap after the
    call is the heap before it followed by that array (or the heap before
    it, if the negative concurrency makes [Run] panic before it sorts), so
    the caller's slice of tasks and every other slice are as they were. *)
Theorem Run_preserves_callers_slices {St} `{SW : timeutils.Stopwatch}
    (sortSlice : (linter.Config -> linter.Config -> bool) ->
                 list linter.Config -> list linter.Config)
    (Duration_String : time.Duration -> string)
    (r : Runner St) (ctx : context.Context) (linters : slice) (l : list linter.Config)
    (lintCtx : linter.Context) (now : nat -> time.Time) (w : World St) :
  heap w !! linters = Some l ->
  let w' := snd (Run sortSlice Duration_String r ctx linters lintCtx now w) in
  heap w' = (if (linter.Concurrency lintCtx <? 0)%Z then heap w
             else heap w ++ [sortSlice lessSpeed l])
  /\ heap w' !! linters = Some l
  /\ forall s, s < length (heap w) -> heap w' !! s = heap w !! s.
Proof.
  intros Hl w'.
  assert (Hheap : heap w' = if (linter.Concurrency lintCtx <? 0)%Z then heap w
                            else heap w ++ [sortSlice lessSpeed l]).
  { subst w'. unfold Run, bind.
    pose proof (runWorkers_heap sortSlice Duration_String ctx lintCtx linters l now w Hl)
      as Hfresh.
    destruct (runWorkers sortSlice Duration_String ctx lintCtx linters now w)
      as [[lintResultsCh|msg] w1]; simpl in Hfresh; [|exact Hfresh].
    pose proof (processLintResults_frame r lintResultsCh w1) as [Hp _].
    destruct (processLintResults r lintResultsCh w1) as [processed w2]. simpl in Hp.
    destruct (context.ErrInRun ctx); simpl.
    - rewrite rangeCount_spec. simpl. now rewrite Hp.
    - now rewrite Hp. }
  split; [exact Hheap|]. rewrite Hheap.
  assert (Hlt : linters < length (heap w)) by (eapply lookup_lt_Some; eauto).
  destruct (linter.Concurrency lintCtx <? 0)%Z.
  - split; [exact Hl|reflexivity].
  - split.
    + rewrite lookup_app_l by exact Hlt. exact Hl.
    + intros s Hs. now rewrite lookup_app_l.
Qed.

Lemma Run_preserves_callers_slices_witness :
  heap (snd (Run insertionSort nanoseconds (mkRunner [keepAll]) (context.mkCtx None true) 0
                 (linter.mkContext 1 "root") (fun _ => 0%Z)
                 (emptyWorld [[crasher; govet; quiet]])))
  = [[crasher; govet; quiet]; [quiet; govet; crasher]].
Proof.
  destruct (Run_preserves_callers_slices insertionSort nanoseconds (mkRunner [keepAll])
              (context.mkCtx None true) 0 [crasher; govet; quiet] (linter.mkContext 1 "root")
              (fun _ => 0%Z) (emptyWorld [[crasher; govet; quiet]]) eq_refl) as [H _].
  rewrite H. reflexivity.
Defined.

(** ** Dispatch order and the choice of sort *)

(** X10: [sort.Slice] is not stable, but the order it leaves between tasks
    of equal speed is all that depends on it: any two sorts that meet its
    contract enqueue tasks with the same sequence of speeds. *)
Theorem dispatch_speeds_independent_of_sort {St}
    (sort1 sort2 : (linter.Config -> linter.Config -> bool) ->
                   list linter.Config -> list linter.Config)
    (linters : slice) (l : list linter.Config) (w : World St) :
  sortContract sort1 ->
  sortContract sort2 ->
  heap w !! linters = Some l ->
  map linter.GetSpeed (fst (dispatch sort1 linters w))
  = map linter.GetSpeed (fst (dispatch sort2 linters w)).
Proof.
  intros H1 H2 Hl. rewrite !(dispatch_spec _ _ _ _ Hl). simpl.
  destruct (H1 lessSpeed lessSpeed_StrictWeakOrder l) as [Hp1 Hs1].
  destruct (H2 lessSpeed lessSpeed_StrictWeakOrder l) as [Hp2 Hs2].
  assert (Hle : forall x y : linter.Config,
             lessSpeed y x = false -> (linter.GetSpeed x <= linter.GetSpeed y)%Z).
  { intros x y. unfold lessSpeed. now rewrite Z.ltb_ge. }
  apply (Sorted_unique Z.le).
  - apply (Sorted_fmap _ _ _ _ Hle Hs1).
  - apply (Sorted_fmap _ _ _ _ Hle Hs2).
  - apply fmap_Permutation. now rewrite <- Hp1, <- Hp2.
Qed.

Lemma dispatch_speeds_independent_of_sort_witness :
  map linter.GetSpeed (fst (dispatch insertionSort 0 (emptyWorld [[crasher; govet; quiet]])))
  = map linter.GetSpeed
        (fst (dispatch (fun less l => insertionSort less (rev l)) 0
                       (emptyWorld [[crasher; govet; quiet]]))).
Proof.
  apply (dispatch_speeds_independent_of_sort insertionSort
           (fun less l => insertionSort less (rev l)) 0 [crasher; govet; quiet]
           (emptyWorld [[crasher; govet; quiet]])).
  - exact insertionSort_contract.
  - intros less Hswo l. destruct (insertionSort_contract less Hswo (rev l)) as [Hp Hs].
    split; [|exact Hs]. etransitivity; [apply Permutation_rev|exact Hp].
  - reflexivity.
Defined.

(** ** The idle-time report *)

Lemma length_filter_indexed (last : time.Time) (times : list time.Time) :
  forall g : nat -> nat,
    length (filter (fun it : nat * time.Time => it.2 <> last)
                   (imap (fun k t => (g k, t)) times))
    = length (filter (fun t => t <> last) times).
Proof.
  induction times as [|t times IH]; intros g; [reflexivity|].
  rewrite imap_cons, !filter_cons. simpl.
  specialize (IH (fun k => g (S k))).
  destruct (decide (t <> last)); simpl; now rewrite <- IH.
Qed.

(** X11: the report has one line per worker that finished before the last
    one, so it never lists every worker; with a single worker it is empty. *)
Theorem logWorkersStat_report_omits_last_worker
    (Duration_String : time.Duration -> string) (t0 : time.Time) (rest : list time.Time) :
  let times := t0 :: rest in
  let last := lastOf t0 times in
  let report := idleLoop Duration_String last 0 times [] in
  length report = length (filter (fun t => t <> last) times)
  /\ length report < length times
  /\ idleLoop Duration_String (lastOf t0 [t0]) 0 [t0] [] = [].
Proof.
  intros times last report.
  assert (Hlen : length report = length (filter (fun t => t <> last) times)).
  { subst report. rewrite idleLoop_report, length_map.
    apply (length_filter_indexed last times (fun k => k)). }
  split; [exact Hlen|]. split.
  - rewrite Hlen. apply (length_filter_lt _ _ last).
    + subst last times. simpl. unfold time.After. rewrite Z.ltb_irrefl. apply lastOf_elem.
    + intros Hne. now apply Hne.
  - simpl. unfold time.After, time.Equal. now rewrite Z.ltb_irrefl, Z.eqb_refl.
Qed.

(** ** The collector and the stream of processed records *)

(** X12: the collector sends each finding of each record, in order, and
    nothing else: collecting two streams one after the other gives the
    concatenation, a finding is sent exactly when some record holds it, and
    the number of findings sent is the sum of the records' sizes. *)
Theorem collectIssues_flattens (a b : list lintRes) :
  collectIssues (a ++ b) = collectIssues a ++ collectIssues b
  /\ (forall i, i ∈ collectIssues a
                <-> exists res, res ∈ a /\ i ∈ default [] (issues res))
  /\ length (collectIssues a) = sum_list (map (fun res => len (issues res)) a).
Proof.
  unfold collectIssues. rewrite !collectLoop_spec. simpl.
  split; [|split].
  - now rewrite map_app, join_app.
  - intros i. rewrite list_elem_of_join. split.
    + intros (found & Hi & Hfound). apply list_elem_of_fmap in Hfound as (res & -> & Hres).
      exists res. split; assumption.
    + intros (res & Hres & Hi). exists (default [] (issues res)). split; [exact Hi|].
      apply list_elem_of_fmap. exists res. split; [reflexivity|exact Hres].
  - rewrite length_join. f_equal. clear b.
    induction a as [|res a IH]; csimpl; [reflexivity|].
    f_equal; [destruct (issues res); reflexivity|exact IH].
Qed.
